(** * getMultiPrimerSet: multiplex primer-set selection

    A shallow embedding of [getMultiPrimerSet.py] and the properties of its
    candidate generation, combination enumeration, scoring and best-set
    selection.

    Conventions of the embedding:
    - Python [int] is [Z]; Python [float] is modelled by exact rationals [Q]
      extended with [+inf] and [nan] (rounding is abstracted away);
    - a Python dict read by key is a [gmap string pyval]; the dict literal
      with six fixed keys that describes a primer pair is a record;
    - a Python set of names is a [gset string];
    - the effects of the script (console output, calls to the external
      services, uncaught exceptions, [exit]) are explicit: a computation
      yields the list of events it performed and either a value or the
      exception that ended it. *)

From Stdlib Require Import ZArith QArith Qabs Qminmax Lqa.
From stdpp Require Import base list strings gmap pretty sorting.

Local Open Scope string_scope.
Local Open Scope list_scope.
Local Open Scope Z_scope.

(** ** Python values and exceptions *)

Inductive pyval :=
| VInt (z : Z)
| VFloat (q : Q)
| VStr (s : string).

Inductive exn :=
| NameError (name : string)
| KeyError (key : string)
| TypeError (what : string)
| ValueError (what : string)
| ServiceError (what : string)
| SystemExit (code : Z).

Definition str_exn (e : exn) : string :=
  match e with
  | NameError n => "name '" +:+ n +:+ "' is not defined"
  | KeyError k => "'" +:+ k +:+ "'"
  | TypeError w => w
  | ValueError w => w
  | ServiceError w => w
  | SystemExit c => pretty c
  end.

(** ** Events and the effect monad *)

Inductive event :=
| Print (line : string)
| SeqIO_read_call (path : string)
| designPrimers_call (input_params global_args : list (string * pyval))
| calcHeterodimer_call (seq1 seq2 : pyval)
| Progress (done total : nat).

Inductive result (A : Type) :=
| Ok (a : A)
| Raise (e : exn).
Arguments Ok {A} a.
Arguments Raise {A} e.

Definition M (A : Type) : Type := list event * result A.

Definition ret {A} (a : A) : M A := ([], Ok a).
Definition raise {A} (e : exn) : M A := ([], Raise e).
Definition emit (ev : event) : M unit := ([ev], Ok tt).
Definition print (s : string) : M unit := emit (Print s).
Definition bind {A B} (m : M A) (k : A → M B) : M B :=
  match m with
  | (tr, Ok a) => let '(tr', r) := k a in (tr ++ tr', r)
  | (tr, Raise e) => (tr, Raise e)
  end.
Definition lift {A} (r : result A) : M A := ([], r).

Notation "'do' x <- m ; k" := (bind m (λ x, k))
  (at level 10, x name, m at level 100, k at level 200).
Notation "'do_' m ; k" := (bind m (λ _, k))
  (at level 10, m at level 100, k at level 200).

Definition trace {A} (m : M A) : list event := fst m.
Definition outcome {A} (m : M A) : result A := snd m.

(** ** Python helpers *)

(** [str(i)] for an [int]. *)
Definition str_int (z : Z) : string := pretty z.

(** [s[lo:hi]] with Python's treatment of negative and out-of-range bounds. *)
Definition slice_bound (len i : Z) : Z :=
  if i <? 0 then Z.max 0 (i + len) else Z.min i len.
Definition py_slice (s : string) (lo hi : Z) : string :=
  let n := Z.of_nat (String.length s) in
  let a := slice_bound n lo in
  let b := slice_bound n hi in
  if a <? b then String.substring (Z.to_nat a) (Z.to_nat (b - a)) s else "".

(** [d[k]] on a dict: [KeyError] when the key is absent. *)
Definition getitem (d : gmap string pyval) (k : string) : result pyval :=
  match d !! k with
  | Some v => Ok v
  | None => Raise (KeyError k)
  end.

(** [v == 0]. *)
Definition eq_zero (v : pyval) : bool :=
  match v with
  | VInt z => z =? 0
  | VFloat q => Qeq_bool q 0
  | VStr _ => false
  end.

(** [range(v)]: the indices iterated, or [TypeError] when [v] is no [int]. *)
Definition py_range (v : pyval) : result (list nat) :=
  match v with
  | VInt n => Ok (seq 0 (Z.to_nat n))
  | _ => Raise (TypeError "object cannot be interpreted as an integer")
  end.

(** ** Candidate primer pairs *)

(** The dict built at lines 110-117; the values are stored as the service
    returned them. *)
Record candidate := {
  Forward_Primer : pyval;
  Reverse_Primer : pyval;
  Forward_tm : pyval;
  Reverse_tm : pyval;
  Product_Size : pyval;
  name : string
}.

(** Keys of the service's answer for pair [i]. *)
Definition key_left_seq (i : nat) : string := "PRIMER_LEFT_" +:+ pretty i +:+ "_SEQUENCE".
Definition key_right_seq (i : nat) : string := "PRIMER_RIGHT_" +:+ pretty i +:+ "_SEQUENCE".
Definition key_left_tm (i : nat) : string := "PRIMER_LEFT_" +:+ pretty i +:+ "_TM".
Definition key_right_tm (i : nat) : string := "PRIMER_RIGHT_" +:+ pretty i +:+ "_TM".
Definition key_product_size (i : nat) : string := "PRIMER_PAIR_" +:+ pretty i +:+ "_PRODUCT_SIZE".
Definition key_num_returned : string := "PRIMER_PAIR_NUM_RETURNED".

(** Body of the [for i in range(...)] loop, lines 102-117. *)
Definition read_pair (primers : gmap string pyval) (nm : string) (i : nat) : result candidate :=
  match getitem primers (key_left_seq i) with
  | Raise e => Raise e
  | Ok forward_seq =>
  match getitem primers (key_right_seq i) with
  | Raise e => Raise e
  | Ok reverse_seq =>
  match getitem primers (key_right_tm i) with
  | Raise e => Raise e
  | Ok forward_tm =>
  match getitem primers (key_left_tm i) with
  | Raise e => Raise e
  | Ok reverse_tm =>
  match getitem primers (key_product_size i) with
  | Raise e => Raise e
  | Ok product_size =>
      Ok {| Forward_Primer := forward_seq;
            Reverse_Primer := reverse_seq;
            Forward_tm := forward_tm;
            Reverse_tm := reverse_tm;
            Product_Size := product_size;
            name := nm |}
  end end end end end.

(** The loop itself: [primer_pairs] grows by one record per index; an
    exception leaves the loop with the records appended so far. *)
Fixpoint read_pairs (primers : gmap string pyval) (nm : string) (idx : list nat)
    (primer_pairs : list candidate) : list candidate * option exn :=
  match idx with
  | [] => (primer_pairs, None)
  | i :: idx' =>
      match read_pair primers nm i with
      | Ok c => read_pairs primers nm idx' (primer_pairs ++ [c])
      | Raise e => (primer_pairs, Some e)
      end
  end.

(** Command-line configuration ([args] and [product_size_range]). *)
Record config := {
  input_file : string;
  target_tm : Q;
  primer_len : Z;
  product_size_min : Z;
  product_size_max : Z;
  arg_ret : Z;
  Q5 : bool;
  background : string;
  cpus : Z;
  arg_eval : Z
}.

Definition input_params_of (record_id target_seq : string) (cfg : config)
    : list (string * pyval) :=
  [ ("SEQUENCE_ID", VStr record_id);
    ("SEQUENCE_TEMPLATE", VStr target_seq);
    ("PRIMER_OPT_SIZE", VInt (primer_len cfg));
    ("PRIMER_MIN_SIZE", VInt (primer_len cfg - 10));
    ("PRIMER_MAX_SIZE", VInt (primer_len cfg + 20));
    ("PRIMER_PICK_INTERNAL_OLIGO", VInt 0);
    ("PRIMER_PRODUCT_SIZE_RANGE",
       VStr (str_int (product_size_min cfg) +:+ "-" +:+ str_int (product_size_max cfg))) ]
  ++ (if String.eqb (background cfg) "" then []
      else [ ("PRIMER_MISPRIMING_LIBRARY", VStr (background cfg)) ]).

Definition global_args_of (cfg : config) : list (string * pyval) :=
  [ ("PRIMER_MIN_GC", VInt 40);
    ("PRIMER_MAX_GC", VInt 80);
    ("PRIMER_NUM_RETURN", VInt (arg_ret cfg));
    ("PRIMER_EXPLAIN_FLAG", VInt 1);
    ("PRIMER_MIN_TM", VFloat (target_tm cfg - 4));
    ("PRIMER_OPT_TM", VFloat (target_tm cfg));
    ("PRIMER_MAX_TM", VFloat (target_tm cfg + 4)) ]
  ++ (if Q5 cfg then
        [ ("PRIMER_SALT_DIVALENT", VInt 2);
          ("PRIMER_SALT_MONOVALENT", VInt 80);
          ("PRIMER_DNA_CONC", VInt 5800);
          ("PRIMER_TM_FORMULA", VInt 1);
          ("PRIMER_SALT_CORRECTIONS", VInt 2) ]
      else []).

(** ** The external services *)

Record services := {
  (** [SeqIO.read(path, "fasta")]: the record's id and sequence. *)
  SeqIO_read : string → result (string * string);
  (** [primer3.bindings.designPrimers(input_params, global_args)]. *)
  designPrimers : list (string * pyval) → list (string * pyval) → result (gmap string pyval);
  (** [primer3.calcHeterodimer(seq1, seq2, temp_c).dg]. *)
  calcHeterodimer_dg : pyval → pyval → Q → result Q
}.

(** ** [design_primers], lines 33-121 *)

(** The [try] block, lines 93-119, and the [return primer_pairs] that
    follows it. Every exception raised inside the block is an [Exception],
    so the handler prints it and control falls through to the [return]. *)
Definition read_answer (primers : gmap string pyval) (nm : string) : M (list candidate) :=
  match primers !! key_num_returned with
  | None => do_ print "No primers found!"; ret []
  | Some n =>
      if eq_zero n then do_ print "No primers found!"; ret []
      else
        match py_range n with
        | Raise e =>
            (* [primer_pairs = []] has been executed before [range] fails *)
            do_ print ("An error occurred: " +:+ str_exn e); ret []
        | Ok idx =>
            match read_pairs primers nm idx [] with
            | (primer_pairs, None) => ret primer_pairs
            | (primer_pairs, Some e) =>
                do_ print ("An error occurred: " +:+ str_exn e); ret primer_pairs
            end
        end
  end.

Definition design_primers (svc : services) (cfg : config)
    (region_start region_end : Z) (nm : string) : M (list candidate) :=
  do_ print ("Picking initial primers for " +:+ nm);
  do_ emit (SeqIO_read_call (input_file cfg));
  do record <- lift (SeqIO_read svc (input_file cfg));
  let target_seq := py_slice (snd record) (region_start - 1) region_end in
  let input_params := input_params_of (fst record) target_seq cfg in
  let global_args := global_args_of cfg in
  do_ emit (designPrimers_call input_params global_args);
  do primers <- lift (designPrimers svc input_params global_args);
  read_answer primers nm.

(** ** The region loop, lines 131-180 *)

(** A row of the region table: [int(row['start'])], [int(row['end'])]. *)
Record region := { r_start : Z; r_end : Z }.

Record loop_state := {
  seen_names : gset string;
  modified_names : gmap string string;
  (** cells written by [df.at[index, 'name'] = ...] *)
  df_name : gmap nat string;
  primers_all : list (list candidate)
}.

Definition initial_state : loop_state :=
  {| seen_names := ∅; modified_names := ∅; df_name := ∅; primers_all := [] |}.

Definition region_name (start end_ : Z) : string :=
  "Target " +:+ str_int start +:+ "-" +:+ str_int end_.

(** [print("Region " + str(start) + ", ", str(end) + " larger ...")]: the two
    arguments of [print] are separated by one blank. *)
Definition too_large_message (start end_ : Z) : string :=
  ("Region " +:+ str_int start +:+ ", ") +:+ " "
  +:+ (str_int end_ +:+ " larger than product_size_range!").

(** [random.randint(a, b)] at line 154. The script has no [import random]
    and no other binding of the name, so evaluating [random] raises. *)
Definition random_randint (a b : Z) : M Z := raise (NameError "random").

(** The name de-duplication block, lines 148-160. *)
Definition register_name (st : loop_state) (index : nat) (nm : string) : M loop_state :=
  if bool_decide (nm ∈ seen_names st) then
    do mm <-
      (match modified_names st !! nm with
       | Some modified_name => ret (modified_name, modified_names st)
       | None =>
           do r <- random_randint 1 100;
           let modified_name := nm +:+ "_" +:+ str_int r in
           ret (modified_name, <[nm := modified_name]> (modified_names st))
       end);
    ret {| seen_names := {[fst mm]} ∪ seen_names st;
           modified_names := snd mm;
           df_name := <[index := fst mm]> (df_name st);
           primers_all := primers_all st |}
  else
    ret {| seen_names := {[nm]} ∪ seen_names st;
           modified_names := modified_names st;
           df_name := df_name st;
           primers_all := primers_all st |}.

Definition too_large (cfg : config) (row : region) : bool :=
  r_end row - r_start row >? product_size_max cfg.

(** One iteration; [None] stands for [break]. *)
Definition loop_body (svc : services) (cfg : config) (st : loop_state)
    (index : nat) (row : region) : M (option loop_state) :=
  let start := r_start row in
  let end_ := r_end row in
  let nm := region_name start end_ in
  if too_large cfg row then
    do_ print (too_large_message start end_);
    ret None
  else
    do st1 <- register_name st index nm;
    do primer_tmp <- design_primers svc cfg start end_ nm;
    if (0 <? length primer_tmp)%nat then
      ret (Some {| seen_names := seen_names st1;
                   modified_names := modified_names st1;
                   df_name := df_name st1;
                   primers_all := primers_all st1 ++ [primer_tmp] |})
    else
      do_ print ("No primer found for: " +:+ nm);
      ret (Some st1).

Fixpoint region_loop (svc : services) (cfg : config) (st : loop_state)
    (index : nat) (rows : list region) : M loop_state :=
  match rows with
  | [] => ret st
  | row :: rows' =>
      do r <- loop_body svc cfg st index row;
      match r with
      | None => ret st
      | Some st' => region_loop svc cfg st' (S index) rows'
      end
  end.

(** Lines 188-195: the flattened pool and the set of names found in it. *)
Definition flat_list (groups : list (list candidate)) : list candidate := concat groups.
Definition names_of (pool : list candidate) : gset string := list_to_set (name <$> pool).

(** ** Floats *)

Inductive pyfloat :=
| Fin (q : Q)
| Inf
| NaN.

(** [a > b] *)
Definition fgt (a b : pyfloat) : bool :=
  match a, b with
  | Fin x, Fin y => negb (Qle_bool x y)
  | Inf, Fin _ => true
  | _, _ => false
  end.

(** [a * 0.9].  Floats are modelled by the rationals they denote, with the
    two special values: the rounding of a product or of a sum to the nearest
    double is not modelled, so a statement about [fmul09] or [np_mean] holds
    of the unrounded value. *)
Definition fmul09 (a : pyfloat) : pyfloat :=
  match a with
  | Fin x => Fin (x * (9 # 10))
  | Inf => Inf
  | NaN => NaN
  end.

(** ** [itertools] *)

(** [itertools.combinations(l, r)]: the [r]-element sub-sequences of [l], in
    the order of the positions chosen. *)
Fixpoint combinations {A} (l : list A) (r : nat) : list (list A) :=
  match r with
  | O => [[]]
  | S r' =>
      match l with
      | [] => []
      | x :: tl => (cons x <$> combinations tl r') ++ combinations tl r
      end
  end.

(** [sys.maxsize], the largest [Py_ssize_t]; the value of a 64-bit CPython. *)
Definition sys_maxsize : Z := 2 ^ 63 - 1.

(** [itertools.islice(it, stop)]: at most [stop] leading items.  The call
    itself refuses a [stop] outside [0 <= x <= sys.maxsize], before any item
    is drawn: [-1] and the integers that do not fit a [Py_ssize_t] with the
    first message, the other negative ones with the second. *)
Definition islice {A} (it : list A) (stop : Z) : result (list A) :=
  if (stop =? -1) || (stop <? - sys_maxsize - 1) || (sys_maxsize <? stop)
  then Raise (ValueError "Stop argument for islice() must be None or an integer: 0 <= x <= sys.maxsize.")
  else if stop <? 0
  then Raise (ValueError "Indices for islice() must be None or an integer: 0 <= x <= sys.maxsize.")
  else Ok (take (Z.to_nat stop) it).

(** [for p1, p2 in ...]: unpacking of the 2-tuples. *)
Definition unpack2 {A} (c : list A) : option (A * A) :=
  match c with
  | [p1; p2] => Some (p1, p2)
  | _ => None
  end.

(** ** [calculate_score], lines 198-220 *)

Record score := {
  score_size : pyfloat;
  score_tmp : pyfloat;
  score_mean : pyfloat;
  score_range : pyfloat
}.

Definition as_num (v : pyval) : result Q :=
  match v with
  | VInt z => Ok (inject_Z z)
  | VFloat q => Ok q
  | VStr _ => Raise (TypeError "unsupported operand type(s)")
  end.

Fixpoint as_nums (vs : list pyval) : result (list Q) :=
  match vs with
  | [] => Ok []
  | v :: vs' =>
      match as_num v, as_nums vs' with
      | Ok q, Ok qs => Ok (q :: qs)
      | Raise e, _ => Raise e
      | _, Raise e => Raise e
      end
  end.

Definition Qmaximum (q : Q) (qs : list Q) : Q := fold_left Qmax qs q.
Definition Qminimum (q : Q) (qs : list Q) : Q := fold_left Qmin qs q.
Definition Qsum (qs : list Q) : Q := fold_right Qplus 0%Q qs.

(** [max(vs) - min(vs)] *)
Definition spread (vs : list pyval) : result Q :=
  match vs with
  | [] => Raise (ValueError "max() arg is an empty sequence")
  | _ =>
      match as_nums vs with
      | Ok (q :: qs) => Ok (Qmaximum q qs - Qminimum q qs)%Q
      | Ok [] => Raise (ValueError "max() arg is an empty sequence")
      | Raise e => Raise e
      end
  end.

(** [np.mean], [np.min], [np.max] on a list of floats.  [np_min] and
    [np_max] return a member of the list and are exact; [np_mean] is the
    unrounded quotient, [nan] on the empty list. *)
Definition np_mean (h : list Q) : pyfloat :=
  match h with
  | [] => NaN
  | _ => Fin (Qsum h / inject_Z (Z.of_nat (length h)))
  end.
Definition np_min (h : list Q) : result Q :=
  match h with
  | [] => Raise (ValueError "zero-size array to reduction operation minimum which has no identity")
  | q :: qs => Ok (Qminimum q qs)
  end.
Definition np_max (h : list Q) : result Q :=
  match h with
  | [] => Raise (ValueError "zero-size array to reduction operation maximum which has no identity")
  | q :: qs => Ok (Qmaximum q qs)
  end.

(** The loop of lines 210-212. *)
Fixpoint heterodimer_loop (svc : services) (temp_c : Q) (ps : list (pyval * pyval))
    : M (list Q) :=
  match ps with
  | [] => ret []
  | p :: ps' =>
      do_ emit (calcHeterodimer_call (fst p) (snd p));
      do dg <- lift (calcHeterodimer_dg svc (fst p) (snd p) temp_c);
      do rest <- heterodimer_loop svc temp_c ps';
      ret (dg :: rest)
  end.

Definition primer_pairs_of (comb : list candidate) : list (candidate * candidate) :=
  omap unpack2 (combinations comb 2).

Definition primer_pairs_sequences_of (comb : list candidate) : list (pyval * pyval) :=
  (λ p, (Forward_Primer (fst p), Reverse_Primer (snd p))) <$> primer_pairs_of comb.

(** [pool] is the global [primers_all] (the flattened pool); [temp_c] is the
    value of the default argument [target_tm]. *)
Definition calculate_score (svc : services) (pool : list candidate) (temp_c : Q)
    (comb : list candidate) : M (score * list candidate) :=
  let product_sizes := Product_Size <$> pool in
  let tm_values := (Forward_tm <$> pool) ++ (Reverse_tm <$> pool) in
  do product_size_range <- lift (spread product_sizes);
  do tm_range <- lift (spread tm_values);
  do heterodimer_scores <- heterodimer_loop svc temp_c (primer_pairs_sequences_of comb);
  let mean := np_mean heterodimer_scores in
  do lo <- lift (np_min heterodimer_scores);
  do hi <- lift (np_max heterodimer_scores);
  ret ({| score_size := Fin product_size_range;
          score_tmp := Fin tm_range;
          score_mean := mean;
          score_range := Fin (Qabs lo - Qabs hi)%Q |}, comb).

(** ** Enumeration of the combinations, lines 229-235 *)

(** The filter of line 232. *)
Definition covers (names : gset string) (c : list candidate) : Prop :=
  names_of c = names.
#[global] Instance covers_dec names c : Decision (covers names c) :=
  decide (names_of c = names).

Record enumeration := {
  (** the raw subsets drawn from [itertools.combinations] (line 229) *)
  examined : list (list candidate);
  (** the filtered and capped list handed on (line 235) *)
  valid_combinations : list (list candidate)
}.

Definition enumerate (pool : list candidate) (names : gset string) (eval : Z)
    : result enumeration :=
  match islice (combinations pool (size names)) (4 * eval) with
  | Raise e => Raise e
  | Ok raw =>
      match islice (filter (covers names) raw) eval with
      | Raise e => Raise e
      | Ok valid => Ok {| examined := raw; valid_combinations := valid |}
      end
  end.

(** ** The selection fold, lines 237-254 *)

Record best_state := {
  best_score : score;
  best_comb : option (list candidate)
}.

Definition initial_best : best_state :=
  {| best_score := {| score_size := Inf; score_tmp := Inf;
                      score_mean := Inf; score_range := Inf |};
     best_comb := None |}.

(** The test of line 252; [and] binds tighter than [or]. *)
Definition tmp_test (best s : score) : bool :=
  fgt (score_tmp best) (Fin 4)
  || (fgt (score_tmp s) (Fin 4) && fgt (score_tmp best) (score_tmp s)).

(** Lines 248-254: does the incoming score replace the current best? *)
Definition accepts (best s : score) : bool :=
  if fgt (score_mean best) (score_mean s) then
    if fgt (fmul09 (score_range best)) (score_range s) then true
    else if tmp_test best s then true
    else false
  else false.

Definition update_best (st : best_state) (r : score * list candidate) : best_state :=
  if accepts (best_score st) (fst r)
  then {| best_score := fst r; best_comb := Some (snd r) |}
  else st.

(** The tasks handed to the thread pool: each runs to its end and keeps its
    result or its exception in its future. The events of the tasks are
    recorded in submission order. *)
Fixpoint submit_all (svc : services) (pool : list candidate) (temp_c : Q)
    (combs : list (list candidate))
    : list event * list (result (score * list candidate)) :=
  match combs with
  | [] => ([], [])
  | comb :: combs' =>
      let task := calculate_score svc pool temp_c comb in
      let rest := submit_all svc pool temp_c combs' in
      (fst task ++ fst rest, snd task :: snd rest)
  end.

(** The [for i, future in enumerate(as_completed(...))] loop over the
    futures in the order in which they completed. *)
Fixpoint select_loop (st : best_state) (i num : nat)
    (futures : list (result (score * list candidate))) : M best_state :=
  match futures with
  | [] => ret st
  | future :: futures' =>
      do r <- lift future;
      let st' := update_best st r in
      do_ emit (Progress (S i) num);
      select_loop st' (S i) num futures'
  end.

(** [len(valid_combinations)] at line 240: the operand is an
    [itertools.islice] object, which has no length. *)
Definition len_islice {A} (it : list A) : M nat :=
  raise (TypeError "object of type 'itertools.islice' has no len()").

(** Lines 223-254. [as_completed] is the order in which the thread pool
    delivers the futures. *)
Definition selection (svc : services) (as_completed : ∀ A, list A → list A)
    (cfg : config) (pool : list candidate) (names : gset string) (temp_c : Q)
    : M best_state :=
  if bool_decide (size names ≤ 1)%nat then
    do_ print ("not enough targets! " +:+ String.concat " " (elements names));
    raise (SystemExit 1)
  else
    do_ print ("Finding best primer set for the following targets: "
               +:+ String.concat ", " (elements names));
    do en <- lift (enumerate pool names (arg_eval cfg));
    do num_valid_combinations <- len_islice (valid_combinations en);
    do_ print ("From a total of " +:+ pretty num_valid_combinations +:+ " combinations");
    do_ (if cpus cfg <=? 0
         then raise (ValueError "max_workers must be greater than 0")
         else ret tt);
    let tasks := submit_all svc pool temp_c (valid_combinations en) in
    do_ ((fst tasks, Ok tt) : M unit);
    select_loop initial_best 0 num_valid_combinations (as_completed _ (snd tasks)).

(** ** The script *)

(** The default argument of [def calculate_score(comb, target_tm=target_tm)]
    at line 198 is evaluated when the [def] statement runs; no global of that
    name is bound at that point. *)
Definition global_target_tm : M Q := raise (NameError "target_tm").

Definition script (svc : services) (as_completed : ∀ A, list A → list A)
    (cfg : config) (rows : list region) : M best_state :=
  do st <- region_loop svc cfg initial_state 0 rows;
  let pool := flat_list (primers_all st) in
  let names := names_of pool in
  do temp_c <- global_target_tm;
  selection svc as_completed cfg pool names temp_c.

(** ** Concrete data used in the examples below *)

Definition demo_cfg : config :=
  {| input_file := "reference.fasta"; target_tm := 65; primer_len := 20;
     product_size_min := 400; product_size_max := 800; arg_ret := 100;
     Q5 := true; background := ""; cpus := 8; arg_eval := 10 |}.

(** An answer of the design service with one primer pair. *)
Definition demo_answer : gmap string pyval :=
  list_to_map
    [ ("PRIMER_PAIR_NUM_RETURNED", VInt 1);
      ("PRIMER_LEFT_0_SEQUENCE", VStr "ACGTACGTACGTACGTACGT");
      ("PRIMER_RIGHT_0_SEQUENCE", VStr "TTGCATTGCATTGCATTGCA");
      ("PRIMER_LEFT_0_TM", VFloat (64 # 1));
      ("PRIMER_RIGHT_0_TM", VFloat (66 # 1));
      ("PRIMER_PAIR_0_PRODUCT_SIZE", VInt 450) ].

(** A reference sequence of 400 bases. *)
Definition reference_sequence : string := String.concat "" (replicate 100 "ACGT").

Definition demo_services : services :=
  {| SeqIO_read := λ _, Ok ("chr1", reference_sequence);
     designPrimers := λ _ _, Ok demo_answer;
     calcHeterodimer_dg := λ _ _ _, Ok (- (1))%Q |}.

(** A design service that fails. *)
Definition failing_services : services :=
  {| SeqIO_read := λ _, Ok ("chr1", reference_sequence);
     designPrimers := λ _ _, Raise (ServiceError "primer3 failed");
     calcHeterodimer_dg := λ _ _ _, Ok (- (1))%Q |}.

(** ** Statement vocabulary *)

(** Record [c] holds what the service's answer lists for pair [i], with the
    melting temperatures stored the way lines 104-105 read them. *)
Definition reads_pair (primers : gmap string pyval) (i : nat) (c : candidate) : Prop :=
  primers !! key_right_tm i = Some (Forward_tm c) ∧
  primers !! key_left_tm i = Some (Reverse_tm c) ∧
  primers !! key_left_seq i = Some (Forward_Primer c) ∧
  primers !! key_right_seq i = Some (Reverse_Primer c) ∧
  primers !! key_product_size i = Some (Product_Size c).

(** Requests to the design service ("candidate generation") in a trace. *)
Definition is_generation (ev : event) : bool :=
  match ev with designPrimers_call _ _ => true | _ => false end.
Definition generation_count (tr : list event) : nat :=
  length (List.filter is_generation tr).

(** The display name that the loop derives for a row (line 142). *)
Definition row_name (r : region) : string := region_name (r_start r) (r_end r).

(** The rows the loop reaches before its [break]. *)
Fixpoint before_break (cfg : config) (rows : list region) : list region :=
  match rows with
  | [] => []
  | row :: rows' => if too_large cfg row then [] else row :: before_break cfg rows'
  end.

(** What the specification says of a table with a region that is too large:
    the run is aborted and no candidate generation has taken place. *)
Definition aborts_without_generation {A} (m : M A) : Prop :=
  (∃ e, outcome m = Raise e) ∧ generation_count (trace m) = 0%nat.

Definition row (start end_ : Z) : region := {| r_start := start; r_end := end_ |}.

(** A table whose second region spans 900 bases. *)
Definition too_large_table : list region := [row 100 150; row 100 1000].

(** What the specification says of a table with one target name: the
    program exits with status 1 and no candidate generation took place. *)
Definition exits_without_generation {A} (m : M A) : Prop :=
  outcome m = Raise (SystemExit 1) ∧ generation_count (trace m) = 0%nat.

Definition single_target_table : list region := [row 100 150].

(** The state in which the region loop leaves [single_target_table]. *)
Definition single_target_state : loop_state :=
  {| seen_names := {[ "Target 100-150" ]};
     modified_names := ∅;
     df_name := ∅;
     primers_all :=
       [[ {| Forward_Primer := VStr "ACGTACGTACGTACGTACGT";
             Reverse_Primer := VStr "TTGCATTGCATTGCATTGCA";
             Forward_tm := VFloat (66 # 1);
             Reverse_tm := VFloat (64 # 1);
             Product_Size := VInt 450;
             name := "Target 100-150" |} ]] |}.

(** [a < b] on floats, as a proposition. *)
Definition below (a b : pyfloat) : Prop :=
  match a, b with
  | Fin x, Fin y => (x < y)%Q
  | Fin _, Inf => True
  | _, _ => False
  end.

(** The third rule of the selection policy in the specification's reading:
    (best tmp > 4 or candidate tmp > 4) and candidate tmp < best tmp. *)
Definition tmp_rule_as_specified (best s : score) : Prop :=
  (below (Fin 4) (score_tmp best) ∨ below (Fin 4) (score_tmp s))
  ∧ below (score_tmp s) (score_tmp best).

(** Two scores from one run (same pool-wide [tmp] and [size]). *)
Definition loose_best : score :=
  {| score_size := Fin 50; score_tmp := Fin 5; score_mean := Fin 0; score_range := Fin 0 |}.
Definition loose_candidate : score :=
  {| score_size := Fin 50; score_tmp := Fin 5; score_mean := Fin (- (1)); score_range := Fin 0 |}.

(** Lexicographic order on lists of positions. *)
Fixpoint lex_lt (a b : list nat) : Prop :=
  match a, b with
  | [], _ :: _ => True
  | x :: a', y :: b' => (x < y)%nat ∨ (x = y ∧ lex_lt a' b')
  | _, _ => False
  end.

(** The candidates of [c] sit at the positions [idx] of the pool. *)
Definition drawn_from (pool : list candidate) (idx : list nat) (c : list candidate) : Prop :=
  Forall2 (λ i x, pool !! i = Some x) idx c.

Definition pool_candidate (region_name tag : string) : candidate :=
  {| Forward_Primer := VStr ("ACGT" +:+ tag);
     Reverse_Primer := VStr ("TGCA" +:+ tag);
     Forward_tm := VFloat (64 # 1);
     Reverse_tm := VFloat (66 # 1);
     Product_Size := VInt 450;
     name := region_name |}.

(** A pool of ten candidates, five for each of two regions. *)
Definition ten_pool : list candidate :=
  (pool_candidate "Target 100-150" <$> ["A"; "C"; "G"; "T"; "AA"])
  ++ (pool_candidate "Target 300-350" <$> ["A"; "C"; "G"; "T"; "AA"]).

(** Three candidates for one region and two for another. *)
Definition five_pool : list candidate :=
  (pool_candidate "Target 100-150" <$> ["A"; "C"; "G"])
  ++ (pool_candidate "Target 300-350" <$> ["A"; "C"]).

(** The unordered pairs of distinct positions below [k]: all [(i, j)] with
    [i < j < k]. *)
Definition index_pairs (k : nat) : list (nat * nat) :=
  seq 0 k ≫= λ i, pair i <$> seq (S i) (k - S i).

(** [dg] is the heterodimer energy of the forward sequence of the candidate
    at position [ij.1] against the reverse sequence of the one at [ij.2]. *)
Definition pair_energy (svc : services) (temp_c : Q) (comb : list candidate)
    (ij : nat * nat) (dg : Q) : Prop :=
  ∃ ci cj, comb !! ij.1 = Some ci ∧ comb !! ij.2 = Some cj ∧
    calcHeterodimer_dg svc (Forward_Primer ci) (Reverse_Primer cj) temp_c = Ok dg.

(** [lo] and [hi] are the least and the greatest of [qs]. *)
Definition extremes (qs : list Q) (lo hi : Q) : Prop :=
  lo ∈ qs ∧ hi ∈ qs ∧ ∀ q, q ∈ qs → (lo <= q)%Q ∧ (q <= hi)%Q.

(** [d] is max minus min over the numbers held by [vs]. *)
Definition is_spread (vs : list pyval) (d : Q) : Prop :=
  ∃ qs lo hi, Forall2 (λ v q, as_num v = Ok q) vs qs ∧ extremes qs lo hi ∧ d = (hi - lo)%Q.

(** The enumeration of [ten_pool] with [eval = 10]. *)
Definition ten_enumeration : enumeration :=
  match enumerate ten_pool (names_of ten_pool) 10 with
  | Ok en => en
  | Raise _ => {| examined := []; valid_combinations := [] |}
  end.

Definition score_of (m : M (score * list candidate)) : score :=
  match outcome m with
  | Ok r => fst r
  | Raise _ => best_score initial_best
  end.

(** Two combinations of [ten_pool]. *)
Definition comb_a : list candidate :=
  [pool_candidate "Target 100-150" "A"; pool_candidate "Target 300-350" "A"].
Definition comb_b : list candidate :=
  [pool_candidate "Target 100-150" "C"; pool_candidate "Target 300-350" "G"].

(** ** Vocabulary of the further properties *)

(** The keys that lines 102-106 read for pair [i], in reading order. *)
Definition pair_keys (i : nat) : list string :=
  [key_left_seq i; key_right_seq i; key_right_tm i; key_left_tm i; key_product_size i].

(** The answer lists every key of pair [i]. *)
Definition pair_listed (primers : gmap string pyval) (i : nat) : Prop :=
  Forall (λ k, is_Some (primers !! k)) (pair_keys i).

(** The template cut out of the reference record at line 57. *)
Definition template_of (record : string * string) (region_start region_end : Z) : string :=
  py_slice record.2 (region_start - 1) region_end.

(** What [design_primers] has done when the design service answers. *)
Definition request_trace (cfg : config) (record : string * string)
    (region_start region_end : Z) (nm : string) : list event :=
  [ Print ("Picking initial primers for " +:+ nm);
    SeqIO_read_call (input_file cfg);
    designPrimers_call
      (input_params_of record.1 (template_of record region_start region_end) cfg)
      (global_args_of cfg) ].

(** An answer that lacks the product size of its second pair. *)
Definition broken_answer : gmap string pyval :=
  list_to_map
    [ ("PRIMER_PAIR_NUM_RETURNED", VInt 3);
      ("PRIMER_LEFT_0_SEQUENCE", VStr "ACGTACGTACGTACGTACGT");
      ("PRIMER_RIGHT_0_SEQUENCE", VStr "TTGCATTGCATTGCATTGCA");
      ("PRIMER_LEFT_0_TM", VFloat (64 # 1));
      ("PRIMER_RIGHT_0_TM", VFloat (66 # 1));
      ("PRIMER_PAIR_0_PRODUCT_SIZE", VInt 450);
      ("PRIMER_LEFT_1_SEQUENCE", VStr "CCGTACGTACGTACGTACGG");
      ("PRIMER_RIGHT_1_SEQUENCE", VStr "GTGCATTGCATTGCATTGCC");
      ("PRIMER_LEFT_1_TM", VFloat (63 # 1));
      ("PRIMER_RIGHT_1_TM", VFloat (65 # 1)) ].

Definition broken_services : services :=
  {| SeqIO_read := λ _, Ok ("chr1", reference_sequence);
     designPrimers := λ _ _, Ok broken_answer;
     calcHeterodimer_dg := λ _ _ _, Ok (- (1))%Q |}.

(** An answer whose count is not an integer. *)
Definition float_count_answer : gmap string pyval :=
  <[ "PRIMER_PAIR_NUM_RETURNED" := VFloat (1 # 1) ]> demo_answer.

Definition float_count_services : services :=
  {| SeqIO_read := λ _, Ok ("chr1", reference_sequence);
     designPrimers := λ _ _, Ok float_count_answer;
     calcHeterodimer_dg := λ _ _ _, Ok (- (1))%Q |}.

(** A reference file that cannot be read. *)
Definition unreadable_services : services :=
  {| SeqIO_read := λ _, Raise (ValueError "No records found in handle");
     designPrimers := λ _ _, Ok demo_answer;
     calcHeterodimer_dg := λ _ _ _, Ok (- (1))%Q |}.

(** A table of two regions within the size limit. *)
Definition two_region_table : list region := [row 100 150; row 300 350].

(** The state with which a run of the region loop ends. *)
Definition state_of (m : M loop_state) : loop_state :=
  match outcome m with
  | Ok st => st
  | Raise _ => initial_state
  end.

(** A float that is neither [inf] nor [nan]. *)
Definition finite (x : pyfloat) : Prop := ∃ q, x = Fin q.

(** The progress reports of [n] arrivals processed after the first [i]. *)
Definition progress_trace (i num n : nat) : list event :=
  (λ j, Progress (S j) num) <$> seq i n.

(** Two scores of a run whose pool has a Tm spread of 3. *)
Definition tight_first : score :=
  {| score_size := Fin 50; score_tmp := Fin 3; score_mean := Fin (- (1)); score_range := Fin 2 |}.
Definition tight_second : score :=
  {| score_size := Fin 50; score_tmp := Fin 3; score_mean := Fin (- (2)); score_range := Fin 2 |}.

(** Three scores of a run whose pool has a Tm spread of 5. *)
Definition loose_arrivals : list (score * list candidate) :=
  [ (loose_best, comb_a); (loose_candidate, comb_b); (loose_best, comb_b) ].

(** The state with which a run of the fold ends. *)
Definition best_of (m : M best_state) : best_state :=
  match outcome m with
  | Ok st => st
  | Raise _ => initial_best
  end.

(** A combination of [five_pool]. *)
Definition five_comb : list candidate :=
  [pool_candidate "Target 100-150" "A"; pool_candidate "Target 300-350" "C"].

(** The enumeration of [five_pool] with [eval = 10]. *)
Definition five_enumeration : enumeration :=
  match enumerate five_pool (names_of five_pool) 10 with
  | Ok en => en
  | Raise _ => {| examined := []; valid_combinations := [] |}
  end.

(** The number of [k]-element subsets of an [n]-element set, by Pascal's rule. *)
Fixpoint choose (n k : nat) : nat :=
  match k, n with
  | O, _ => 1
  | S _, O => 0
  | S k', S n' => choose n' k' + choose n' k
  end.

(** The pool [ten_pool], split after its first candidate and after the
    candidates of the first region. *)
Definition starved_first : candidate := pool_candidate "Target 100-150" "A".
Definition starved_same : list candidate :=
  pool_candidate "Target 100-150" <$> ["C"; "G"; "T"; "AA"].
Definition starved_rest : list candidate :=
  pool_candidate "Target 300-350" <$> ["A"; "C"; "G"; "T"; "AA"].

(** Calls of [primer3.calcHeterodimer] in a trace. *)
Definition is_heterodimer (ev : event) : bool :=
  match ev with calcHeterodimer_call _ _ => true | _ => false end.
Definition heterodimer_count (tr : list event) : nat :=
  length (List.filter is_heterodimer tr).

(** A value that [max], [min] and [-] accept. *)
Definition numeric (v : pyval) : Prop :=
  match v with VStr _ => False | _ => True end.

(** Every Tm and product size of the pool is a number. *)
Definition numeric_pool (pool : list candidate) : Prop :=
  Forall (λ c, numeric (Forward_tm c) ∧ numeric (Reverse_tm c) ∧ numeric (Product_Size c)) pool.

(** A decimal digit. *)
Definition is_digit (a : Ascii.ascii) : Prop :=
  String a "" ∈ ["0"; "1"; "2"; "3"; "4"; "5"; "6"; "7"; "8"; "9"].

Fixpoint all_digits (s : string) : Prop :=
  match s with
  | EmptyString => True
  | String a s' => is_digit a ∧ all_digits s'
  end.

(** * Properties *)

(** ** The effect monad *)

Lemma bind_ret_l {A B} (a : A) (k : A → M B) : bind (ret a) k = k a.
Proof. unfold bind, ret. destruct (k a) as [tr r]. done. Qed.

Lemma bind_raise {A B} (e : exn) (k : A → M B) : bind (raise e) k = raise e.
Proof. done. Qed.

Lemma bind_assoc {A B C} (m : M A) (f : A → M B) (g : B → M C) :
  bind (bind m f) g = bind m (λ x, bind (f x) g).
Proof.
  destruct m as [tr [a|e]]; simpl; [|done].
  destruct (f a) as [tr1 [b|e]]; simpl; [|done].
  destruct (g b) as [tr2 r]. by rewrite app_assoc.
Qed.

Lemma bind_Ok_inv {A B} (m : M A) (k : A → M B) tr b :
  bind m k = (tr, Ok b) →
  ∃ tr1 a tr2, m = (tr1, Ok a) ∧ k a = (tr2, Ok b) ∧ tr = tr1 ++ tr2.
Proof.
  destruct m as [tr1 [a|e]]; simpl; [|done].
  destruct (k a) as [tr2 r] eqn:Hk. intros [= <- ->]. eauto 6.
Qed.

(** Inversion of one [bind] in a hypothesis that the whole computation
    returned. *)
Tactic Notation "bind_inv" hyp(H) "as" simple_intropattern(x) simple_intropattern(Hx) :=
  apply bind_Ok_inv in H as (? & x & ? & Hx & H & _).

(** ** Python helpers *)

Example py_slice_examples :
  py_slice "ACGTACGT" 1 3 = "CG" ∧ py_slice "ACGTACGT" (-1) 3 = ""
  ∧ py_slice "ACGTACGT" (-3) 30 = "CGT" ∧ py_slice "ACGTACGT" 5 2 = "".
Proof. done. Qed.

Example region_name_example :
  region_name 100 150 = "Target 100-150" ∧ region_name (-3) 7 = "Target -3-7".
Proof. split; vm_compute; reflexivity. Qed.

Example too_large_message_example :
  too_large_message 100 1000 = "Region 100,  1000 larger than product_size_range!".
Proof. vm_compute. reflexivity. Qed.

Example key_examples :
  key_left_seq 0 = "PRIMER_LEFT_0_SEQUENCE" ∧ key_right_tm 12 = "PRIMER_RIGHT_12_TM"
  ∧ key_product_size 3 = "PRIMER_PAIR_3_PRODUCT_SIZE".
Proof. repeat split; vm_compute; reflexivity. Qed.

(** ** [design_primers] *)

Lemma getitem_Ok d k v : getitem d k = Ok v → d !! k = Some v.
Proof. unfold getitem. destruct (d !! k); [by intros [= ->]|done]. Qed.

Lemma read_pair_Ok primers nm i c :
  read_pair primers nm i = Ok c → reads_pair primers i c ∧ name c = nm.
Proof.
  unfold read_pair, reads_pair.
  destruct (getitem _ (key_left_seq i)) eqn:H1; [|done].
  destruct (getitem _ (key_right_seq i)) eqn:H2; [|done].
  destruct (getitem _ (key_right_tm i)) eqn:H3; [|done].
  destruct (getitem _ (key_left_tm i)) eqn:H4; [|done].
  destruct (getitem _ (key_product_size i)) eqn:H5; [|done].
  intros [= <-]. simpl. auto 10 using getitem_Ok.
Qed.

Lemma read_pairs_inv primers nm n acc l oe :
  read_pairs primers nm (seq (length acc) n) acc = (l, oe) →
  (∀ i c, acc !! i = Some c → reads_pair primers i c ∧ name c = nm) →
  ∀ i c, l !! i = Some c → reads_pair primers i c ∧ name c = nm.
Proof.
  revert acc. induction n as [|n IH]; intros acc; simpl.
  - intros [= <- <-]. auto.
  - destruct (read_pair primers nm (length acc)) as [c0|e] eqn:Hc.
    + intros Hrec Hacc. apply (IH (acc ++ [c0])).
      * by rewrite length_app, Nat.add_1_r.
      * intros i c Hi. apply lookup_app_Some in Hi as [Hi|[Hge Hi]]; [by apply Hacc|].
        apply list_lookup_singleton_Some in Hi as [Hi <-].
        assert (i = length acc) as -> by lia. by apply read_pair_Ok.
    + intros [= <- <-]. auto.
Qed.

Lemma read_answer_inv primers nm tr l :
  read_answer primers nm = (tr, Ok l) →
  ∀ i c, l !! i = Some c → reads_pair primers i c ∧ name c = nm.
Proof.
  unfold read_answer.
  destruct (primers !! key_num_returned) as [n|]; [|by intros [= <- <-] i c].
  destruct (eq_zero n); [by intros [= <- <-] i c|].
  destruct (py_range n) as [idx|e] eqn:Hr; [|by intros [= <- <-] i c].
  destruct n; simplify_eq/=.
  destruct (read_pairs _ _ _ _) as [pp [e|]] eqn:Hp; intros [= <- <-];
    by eapply (read_pairs_inv primers nm _ []).
Qed.

(** C5. For every primer pair that [design_primers] returns, the record's
    ['Forward tm'] is the Tm the service reported for the right primer of
    that pair and its ['Reverse tm'] is the one reported for the left primer,
    while ['Forward Primer'] is the left and ['Reverse Primer'] the right
    sequence: the two Tm values are swapped relative to the sequences. *)
Theorem design_primers_tm_fields svc cfg region_start region_end nm tr pairs :
  design_primers svc cfg region_start region_end nm = (tr, Ok pairs) →
  ∃ input_params global_args primers,
    designPrimers svc input_params global_args = Ok primers ∧
    ∀ i c, pairs !! i = Some c →
      primers !! key_left_seq i = Some (Forward_Primer c) ∧
      primers !! key_right_seq i = Some (Reverse_Primer c) ∧
      primers !! key_right_tm i = Some (Forward_tm c) ∧
      primers !! key_left_tm i = Some (Reverse_tm c).
Proof.
  unfold design_primers. intros H.
  bind_inv H as [] _. bind_inv H as [] _. bind_inv H as record _.
  bind_inv H as [] _. bind_inv H as primers Hsvc.
  injection Hsvc as _ Hsvc.
  eexists _, _, primers. split; [exact Hsvc|].
  intros i c Hi.
  destruct (read_answer_inv _ _ _ _ H i c Hi) as [(?&?&?&?&?) _].
  auto.
Qed.

Lemma design_primers_tm_fields_witness :
  ∃ input_params global_args primers,
    designPrimers demo_services input_params global_args = Ok primers ∧
    ∀ i c, [ {| Forward_Primer := VStr "ACGTACGTACGTACGTACGT";
                Reverse_Primer := VStr "TTGCATTGCATTGCATTGCA";
                Forward_tm := VFloat (66 # 1);
                Reverse_tm := VFloat (64 # 1);
                Product_Size := VInt 450;
                name := "Target 100-150" |} ] !! i = Some c →
      primers !! key_left_seq i = Some (Forward_Primer c) ∧
      primers !! key_right_seq i = Some (Reverse_Primer c) ∧
      primers !! key_right_tm i = Some (Forward_tm c) ∧
      primers !! key_left_tm i = Some (Reverse_tm c).
Proof.
  apply (design_primers_tm_fields demo_services demo_cfg 100 150 "Target 100-150"
           (trace (design_primers demo_services demo_cfg 100 150 "Target 100-150"))).
  vm_compute. reflexivity.
Defined.

(** ** The region loop *)

Lemma generation_count_app tr1 tr2 :
  generation_count (tr1 ++ tr2) = (generation_count tr1 + generation_count tr2)%nat.
Proof. unfold generation_count. by rewrite List.filter_app, length_app. Qed.

Lemma register_name_trace st index nm : trace (register_name st index nm) = [].
Proof.
  unfold register_name. case_bool_decide; [|done].
  by destruct (modified_names st !! nm).
Qed.

Lemma read_answer_generation primers nm :
  generation_count (trace (read_answer primers nm)) = 0%nat.
Proof.
  unfold read_answer.
  destruct (primers !! key_num_returned) as [n|]; [|done].
  destruct (eq_zero n); [done|].
  destruct (py_range n); [|done].
  by destruct (read_pairs _ _ _ _) as [pp [e|]].
Qed.

(** The de-duplication block never completes on a name seen before: the
    loop gets past a row only while [modified_names] is empty, and with a
    seen name absent from [modified_names] line 154 raises. *)
Lemma register_name_seen st index nm :
  nm ∈ seen_names st → modified_names st !! nm = None →
  register_name st index nm = raise (NameError "random").
Proof. intros Hin Hm. unfold register_name. rewrite bool_decide_eq_true_2, Hm; done. Qed.

Lemma register_name_Ok st index nm tr st' :
  modified_names st = ∅ →
  register_name st index nm = (tr, Ok st') →
  (nm ∉ seen_names st) ∧ seen_names st' = ({[nm]} ∪ seen_names st) ∧
  modified_names st' = ∅ ∧ df_name st' = df_name st.
Proof.
  intros Hm. unfold register_name. case_bool_decide as Hin.
  - by rewrite Hm, lookup_empty.
  - intros [= _ <-]. simpl. done.
Qed.

Section region_loop.
Context (svc : services) (cfg : config).

Lemma design_primers_generation s e nm tr l :
  design_primers svc cfg s e nm = (tr, Ok l) → generation_count tr = 1%nat.
Proof.
  unfold design_primers.
  destruct (SeqIO_read svc (input_file cfg)) as [record|]; [|done].
  cbn [lift bind print emit app].
  destruct (designPrimers svc _ _) as [primers|]; [|done].
  pose proof (read_answer_generation primers nm) as Hg.
  destruct (read_answer primers nm) as [tr' r]. simpl in *.
  intros [= <- _]. unfold generation_count in *. simpl. by rewrite Hg.
Qed.

Lemma loop_body_generation st index r tr st' :
  loop_body svc cfg st index r = (tr, Ok (Some st')) → generation_count tr = 1%nat.
Proof.
  unfold loop_body. destruct (too_large cfg r); [done|].
  pose proof (register_name_trace st index (region_name (r_start r) (r_end r))) as Hr.
  destruct (register_name _ _ _) as [tr1 [st1|]]; [|done]. simpl in Hr. subst tr1.
  destruct (design_primers _ _ _ _ _) as [tr2 [p|]] eqn:Hd; [|done].
  apply design_primers_generation in Hd.
  cbn [bind]. destruct (0 <? length p)%nat; simpl; intros [= <- _];
    rewrite ?app_nil_r, ?generation_count_app, Hd; reflexivity.
Qed.

Lemma loop_body_break st index r tr :
  loop_body svc cfg st index r = (tr, Ok None) →
  too_large cfg r = true ∧ generation_count tr = 0%nat.
Proof.
  unfold loop_body. destruct (too_large cfg r).
  - by intros [= <-].
  - destruct (register_name _ _ _) as [tr1 [st1|]]; [|done].
    destruct (design_primers _ _ _ _ _) as [tr2 [p|]]; [|done].
    cbn [bind]. by destruct (0 <? length p)%nat.
Qed.

Lemma loop_body_continue st index r tr st' :
  loop_body svc cfg st index r = (tr, Ok (Some st')) → too_large cfg r = false.
Proof. unfold loop_body. by destruct (too_large cfg r). Qed.

Lemma region_loop_generation rows : ∀ st index tr st',
  region_loop svc cfg st index rows = (tr, Ok st') →
  generation_count tr = length (before_break cfg rows).
Proof.
  induction rows as [|r rows IH]; intros st index tr st'.
  - by intros [= <- _].
  - cbn [region_loop before_break].
    destruct (loop_body svc cfg st index r) as [tr1 [[st1|]|e]] eqn:Hb; [| |done].
    + rewrite (loop_body_continue _ _ _ _ _ Hb).
      apply loop_body_generation in Hb. cbn [bind].
      destruct (region_loop svc cfg st1 (S index) rows) as [tr2 [st2|]] eqn:Hl; [|done].
      intros [= <- _]. rewrite generation_count_app, Hb. simpl. f_equal. by eapply IH.
    + apply loop_body_break in Hb as [-> Hb]. intros [= <- _].
      by rewrite app_nil_r.
Qed.

Lemma region_loop_app st index pre rest :
  Forall (λ r, too_large cfg r = false) pre →
  region_loop svc cfg st index (pre ++ rest) =
    bind (region_loop svc cfg st index pre)
         (λ st', region_loop svc cfg st' (index + length pre) rest).
Proof.
  intros Hpre. revert st index.
  induction Hpre as [|r pre Hr _ IH]; intros st index.
  - change ([] ++ rest) with rest. change (region_loop svc cfg st index []) with (ret (A:=loop_state) st).
    rewrite bind_ret_l. by rewrite Nat.add_0_r.
  - cbn [app region_loop length]. rewrite bind_assoc.
    destruct (loop_body svc cfg st index r) as [tr1 [[st1|]|e]] eqn:Hbody.
    + simpl. rewrite IH. by replace (S index + length pre)%nat with (index + S (length pre))%nat by lia.
    + exfalso. unfold loop_body in Hbody. rewrite Hr in Hbody.
      destruct (register_name st index _) as [tr2 [st2|e]]; simpl in Hbody; [|done].
      destruct (design_primers _ _ _ _ _) as [tr3 [p|e]]; simpl in Hbody; [|done].
      destruct (0 <? length p)%nat; simpl in Hbody; done.
    + done.
Qed.

(** C2 (amended). At the first region that is too large the loop stops: the
    regions before it are processed as in a table that ends there, the
    diagnostic naming the offending region is printed, and the loop ends
    with the state reached so far; neither that region nor a later one is
    processed. *)
Theorem region_loop_too_large st index pre big post :
  Forall (λ r, too_large cfg r = false) pre →
  too_large cfg big = true →
  region_loop svc cfg st index (pre ++ big :: post) =
    bind (region_loop svc cfg st index pre)
         (λ st', bind (print (too_large_message (r_start big) (r_end big)))
                      (λ _, ret st')).
Proof.
  intros Hpre Hbig. rewrite region_loop_app by done.
  destruct (region_loop svc cfg st index pre) as [tr [st'|e]]; [|done].
  cbn [bind region_loop]. unfold loop_body. rewrite Hbig. done.
Qed.

(** An exception of the design service leaves [design_primers], whatever
    the region. *)
Lemma design_primers_service_raise s e nm record err :
  SeqIO_read svc (input_file cfg) = Ok record →
  (∀ ip ga, designPrimers svc ip ga = Raise err) →
  outcome (design_primers svc cfg s e nm) = Raise err.
Proof. intros Hr Hs. unfold design_primers. rewrite Hr. cbn. by rewrite Hs. Qed.

(** Whenever the loop ends normally, no name was modified. *)
Lemma region_loop_never_renames rows : ∀ st index tr st',
  modified_names st = ∅ →
  region_loop svc cfg st index rows = (tr, Ok st') →
  modified_names st' = ∅ ∧ df_name st' = df_name st.
Proof.
  induction rows as [|r rows IH]; intros st index tr st' Hm.
  - by intros [= _ <-].
  - cbn [region_loop].
    destruct (loop_body svc cfg st index r) as [tr1 [[st1|]|e]] eqn:Hb; [| |done].
    + cbn [bind].
      destruct (region_loop svc cfg st1 (S index) rows) as [tr2 [st2|]] eqn:Hl; [|done].
      intros [= _ <-].
      assert (modified_names st1 = ∅ ∧ df_name st1 = df_name st) as [Hm1 Hd1].
      { unfold loop_body in Hb. destruct (too_large cfg r); [done|].
        destruct (register_name _ _ _) as [tr3 [st3|]] eqn:Hreg; [|done].
        apply register_name_Ok in Hreg as (_ & _ & ? & ?); [|done].
        destruct (design_primers _ _ _ _ _) as [tr4 [p|]]; [|done].
        cbn [bind] in Hb. destruct (0 <? length p)%nat; simpl in Hb; by simplify_eq. }
      destruct (IH _ _ _ _ Hm1 Hl) as [? ?]. split; congruence.
    + by intros [= _ <-].
Qed.

Lemma region_loop_seen_names rows : ∀ st index tr st',
  modified_names st = ∅ →
  region_loop svc cfg st index rows = (tr, Ok st') →
  seen_names st' = list_to_set (row_name <$> before_break cfg rows) ∪ seen_names st.
Proof.
  induction rows as [|r rows IH]; intros st index tr st' Hm.
  - intros [= _ <-]. simpl. by rewrite (left_id_L ∅ (∪)).
  - cbn [region_loop before_break].
    destruct (loop_body svc cfg st index r) as [tr1 [[st1|]|e]] eqn:Hb; [| |done].
    + rewrite (loop_body_continue _ _ _ _ _ Hb). cbn [bind].
      destruct (region_loop svc cfg st1 (S index) rows) as [tr2 [st2|]] eqn:Hl; [|done].
      intros [= _ <-].
      assert (modified_names st1 = ∅ ∧ seen_names st1 = {[row_name r]} ∪ seen_names st)
        as [Hm1 Hs1].
      { unfold loop_body in Hb. destruct (too_large cfg r); [done|].
        destruct (register_name _ _ _) as [tr3 [st3|]] eqn:Hreg; [|done].
        apply register_name_Ok in Hreg as (_ & ? & ? & _); [|done].
        destruct (design_primers _ _ _ _ _) as [tr4 [p|]]; [|done].
        cbn [bind] in Hb. destruct (0 <? length p)%nat; simpl in Hb; by simplify_eq. }
      rewrite (IH _ _ _ _ Hm1 Hl), Hs1. cbn [fmap list_fmap list_to_set].
      rewrite (assoc_L (∪)), (comm_L (∪) (list_to_set _) {[row_name r]}). done.
    + apply loop_body_break in Hb as [-> _]. intros [= _ <-].
      simpl. by rewrite (left_id_L ∅ (∪)).
Qed.

(** Whenever the loop reaches a row whose name an earlier row already
    derived, the run ends with the [NameError] of line 154. *)
Lemma region_loop_duplicate_raises pre r post index tr st' :
  Forall (λ r, too_large cfg r = false) pre →
  too_large cfg r = false →
  row_name r ∈ row_name <$> pre →
  region_loop svc cfg initial_state index pre = (tr, Ok st') →
  region_loop svc cfg initial_state index (pre ++ r :: post)
    = (tr, Raise (NameError "random")).
Proof.
  intros Hpre Hr Hdup Hloop. rewrite region_loop_app, Hloop by done.
  destruct (region_loop_never_renames pre initial_state index tr st' eq_refl Hloop) as [Hm _].
  pose proof (region_loop_seen_names pre initial_state index tr st' eq_refl Hloop) as Hseen.
  cbn [bind region_loop]. unfold loop_body. rewrite Hr.
  rewrite register_name_seen.
  - simpl. by rewrite app_nil_r.
  - rewrite Hseen. apply elem_of_union_l, elem_of_list_to_set.
    replace (before_break cfg pre) with pre; [done|].
    clear -Hpre. induction Hpre as [|x l Hx _ IH]; [done|]. simpl. by rewrite Hx, <- IH.
  - by rewrite Hm, lookup_empty.
Qed.

End region_loop.

Lemma region_loop_too_large_witness :
  region_loop demo_services demo_cfg initial_state 0 ([row 100 150] ++ row 100 1000 :: [row 300 350]) =
    bind (region_loop demo_services demo_cfg initial_state 0 [row 100 150])
         (λ st', bind (print (too_large_message 100 1000)) (λ _, ret st')).
Proof.
  apply (region_loop_too_large demo_services demo_cfg initial_state 0
           [row 100 150] (row 100 1000) [row 300 350]).
  - repeat constructor.
  - reflexivity.
Defined.

(** C2 (as stated) fails: the second region of this table spans 900 bases
    with [product_size_max = 800]; candidates have been requested for the
    first region before the check is reached, and the loop then ends
    normally, with the first region's candidates in the pool. *)
Lemma too_large_region_counterexample :
  Exists (λ r, too_large demo_cfg r = true) too_large_table ∧
  ¬ aborts_without_generation
      (region_loop demo_services demo_cfg initial_state 0 too_large_table) ∧
  ¬ aborts_without_generation
      (script demo_services (λ _ l, l) demo_cfg too_large_table) ∧
  generation_count
    (trace (region_loop demo_services demo_cfg initial_state 0 too_large_table)) = 1%nat ∧
  ∃ st, outcome (region_loop demo_services demo_cfg initial_state 0 too_large_table) = Ok st
        ∧ length (flat_list (primers_all st)) = 1%nat.
Proof.
  split; [|split; [|split; [|split]]].
  - apply Exists_cons_tl, Exists_cons_hd. reflexivity.
  - intros [_ H]. vm_compute in H. discriminate.
  - intros [_ H]. vm_compute in H. discriminate.
  - vm_compute. reflexivity.
  - eexists. split; [vm_compute; reflexivity|]. reflexivity.
Qed.

(** C4. At this input the design service raises for the first region. The
    exception is not caught: it leaves [design_primers] and ends the region
    loop, no "An error occurred" line is printed, and the second region is
    never processed. *)
Theorem service_exception_escapes :
  outcome (design_primers failing_services demo_cfg 100 150 "Target 100-150")
    = Raise (ServiceError "primer3 failed") ∧
  region_loop failing_services demo_cfg initial_state 0 [row 100 150; row 300 350]
    = ([ Print "Picking initial primers for Target 100-150";
         SeqIO_read_call "reference.fasta";
         designPrimers_call (input_params_of "chr1" (py_slice reference_sequence 99 150) demo_cfg) (global_args_of demo_cfg) ],
       Raise (ServiceError "primer3 failed")).
Proof. split; vm_compute; reflexivity. Qed.

(** C10. Two rows with the same start and end derive the same name. At the
    second row line 154 raises [NameError]: the name [random] is not bound.
    The run ends there; no name has been changed. *)
Theorem duplicate_name_raises :
  outcome (region_loop demo_services demo_cfg initial_state 0 [row 100 150; row 100 150])
    = Raise (NameError "random") ∧
  generation_count
    (trace (region_loop demo_services demo_cfg initial_state 0 [row 100 150; row 100 150]))
    = 1%nat.
Proof. split; vm_compute; reflexivity. Qed.

(** ** The gate on the number of names *)

(** C9 (amended). Whenever the gate of lines 223-225 is reached with fewer
    than two distinct names in the pool, the only output is the "not enough
    targets" line listing these names and the program exits with status 1;
    nothing is enumerated or scored. Candidate generation is not skipped:
    by then the region loop has sent one request to the design service for
    every region it went through. *)
Theorem not_enough_targets svc as_completed cfg rows tr st temp_c :
  region_loop svc cfg initial_state 0 rows = (tr, Ok st) →
  (size (names_of (flat_list (primers_all st))) < 2)%nat →
  selection svc as_completed cfg (flat_list (primers_all st))
            (names_of (flat_list (primers_all st))) temp_c
    = ([Print ("not enough targets! "
               +:+ String.concat " " (elements (names_of (flat_list (primers_all st)))))],
       Raise (SystemExit 1))
  ∧ generation_count tr = length (before_break cfg rows).
Proof.
  intros Hloop Hsize. split.
  - unfold selection. rewrite bool_decide_eq_true_2 by lia. reflexivity.
  - by eapply region_loop_generation.
Qed.

Lemma not_enough_targets_witness :
  selection demo_services (λ _ l, l) demo_cfg
            (flat_list (primers_all single_target_state))
            (names_of (flat_list (primers_all single_target_state))) 65
    = ([Print ("not enough targets! "
               +:+ String.concat " "
                     (elements (names_of (flat_list (primers_all single_target_state)))))],
       Raise (SystemExit 1))
  ∧ generation_count (trace (region_loop demo_services demo_cfg initial_state 0 single_target_table))
    = length (before_break demo_cfg single_target_table).
Proof.
  apply (not_enough_targets demo_services (λ _ l, l) demo_cfg single_target_table
           (trace (region_loop demo_services demo_cfg initial_state 0 single_target_table))
           single_target_state 65).
  - vm_compute. reflexivity.
  - vm_compute. lia.
Defined.

(** C9 (as stated) fails: for this table with a single target name the
    design service has been asked for candidates before the gate is
    reached. *)
Lemma single_target_counterexample :
  size (list_to_set (C := gset string)
          ((λ r, region_name (r_start r) (r_end r)) <$> single_target_table)) = 1%nat ∧
  generation_count
    (trace (region_loop demo_services demo_cfg initial_state 0 single_target_table)) = 1%nat ∧
  ¬ exits_without_generation
      (script demo_services (λ _ l, l) demo_cfg single_target_table).
Proof.
  split; [|split].
  - vm_compute. reflexivity.
  - vm_compute. reflexivity.
  - intros [_ H]. vm_compute in H. discriminate.
Qed.

(** ** The script as a whole *)

(** Line 198 raises whenever it is reached, so no run gets as far as the
    gate on the names. *)
Lemma script_raises svc as_completed cfg rows :
  ∃ e, outcome (script svc as_completed cfg rows) = Raise e.
Proof.
  unfold script.
  destruct (region_loop svc cfg initial_state 0 rows) as [tr [st|e]]; simpl; eauto.
Qed.

(** Line 240 raises whenever it is reached. *)
Lemma selection_raises svc as_completed cfg pool names temp_c :
  ∃ e, outcome (selection svc as_completed cfg pool names temp_c) = Raise e.
Proof.
  unfold selection. case_bool_decide; [simpl; eauto|].
  cbn [print emit bind].
  destruct (enumerate pool names (arg_eval cfg)) as [en|e]; simpl; eauto.
Qed.

(** ** The selection fold *)

Lemma fgt_below a b : fgt a b = true ↔ below b a.
Proof.
  destruct a as [x| |], b as [y| |]; simpl; try done.
  rewrite negb_true_iff, <- not_true_iff_false, Qle_bool_iff.
  split; [apply Qnot_le_lt | apply Qlt_not_le].
Qed.

Lemma below_trans a b c : below a b → below b c → below a c.
Proof.
  destruct a as [x| |], b as [y| |], c as [z| |]; simpl; try done.
  apply Qlt_trans.
Qed.

(** Under Python's reading of line 252 the test amounts to its first
    comparison. *)
Lemma tmp_test_collapses best s :
  tmp_test best s = fgt (score_tmp best) (Fin 4).
Proof.
  unfold tmp_test. destruct (fgt (score_tmp best) (Fin 4)) eqn:Hb; [done|].
  simpl. apply andb_false_iff.
  destruct (fgt (score_tmp s) (Fin 4)) eqn:Hs; [right|by left].
  apply not_true_iff_false. intros Hbs.
  apply not_true_iff_false in Hb. apply Hb.
  apply fgt_below. apply fgt_below in Hs, Hbs. by eapply below_trans.
Qed.

(** C1 (amended). For an incoming score whose mean is strictly below the
    current best's mean and whose range is not below 0.9 times the current
    best's range, the candidate is accepted exactly when current-best tmp > 4
    OR (candidate tmp > 4 AND candidate tmp < current-best tmp); in every
    other such case it is rejected. *)
Theorem accepts_tmp_rule best s :
  below (score_mean s) (score_mean best) →
  ¬ below (score_range s) (fmul09 (score_range best)) →
  (accepts best s = true ↔
     below (Fin 4) (score_tmp best)
     ∨ (below (Fin 4) (score_tmp s) ∧ below (score_tmp s) (score_tmp best))).
Proof.
  intros Hmean Hrange.
  apply fgt_below in Hmean. rewrite <- fgt_below in Hrange.
  apply not_true_iff_false in Hrange.
  unfold accepts. rewrite Hmean, Hrange.
  rewrite <- !fgt_below. unfold tmp_test.
  destruct (fgt (score_tmp best) (Fin 4)), (fgt (score_tmp s) (Fin 4)),
    (fgt (score_tmp best) (score_tmp s)); simpl; intuition congruence.
Qed.

Lemma accepts_tmp_rule_witness :
  (accepts loose_best loose_candidate = true ↔
     below (Fin 4) (score_tmp loose_best)
     ∨ (below (Fin 4) (score_tmp loose_candidate)
        ∧ below (score_tmp loose_candidate) (score_tmp loose_best))).
Proof.
  apply (accepts_tmp_rule loose_best loose_candidate).
  - reflexivity.
  - vm_compute. intros H. discriminate H.
Defined.

(** C1 (as stated) fails: the candidate has the lower mean and a range that
    is not below 0.9 times the best's; its tmp is not below the best's, so
    the specification's rule rejects it, but line 252 accepts it because the
    best's tmp is above 4. *)
Lemma tmp_rule_counterexample :
  below (score_mean loose_candidate) (score_mean loose_best) ∧
  ¬ below (score_range loose_candidate) (fmul09 (score_range loose_best)) ∧
  accepts loose_best loose_candidate = true ∧
  ¬ tmp_rule_as_specified loose_best loose_candidate.
Proof.
  split; [reflexivity|]. split; [vm_compute; intros H; discriminate H|].
  split; [reflexivity|]. intros [_ H]. vm_compute in H. discriminate H.
Qed.

(** Against the initial placeholder every finite score is accepted. *)
Lemma accepts_initial s m r :
  score_mean s = Fin m → score_range s = Fin r →
  accepts (best_score initial_best) s = true.
Proof. intros Hm Hr. unfold accepts. simpl. by rewrite Hm, Hr. Qed.

(** ** [itertools] *)

Example combinations_example :
  combinations ["A"; "B"; "C"; "D"] 2
    = [["A"; "B"]; ["A"; "C"]; ["A"; "D"]; ["B"; "C"]; ["B"; "D"]; ["C"; "D"]]
  ∧ combinations [0; 1; 2; 3] 3 = [[0; 1; 2]; [0; 1; 3]; [0; 2; 3]; [1; 2; 3]]
  ∧ combinations [0; 1] 3 = [].
Proof. done. Qed.

Section combinations.
Context {A : Type}.

Lemma combinations_length (l : list A) : ∀ r c,
  c ∈ combinations l r → length c = r.
Proof.
  induction l as [|x l IH]; intros [|r] c; simpl.
  - by intros ->%list_elem_of_singleton.
  - by intros ?%elem_of_nil.
  - by intros ->%list_elem_of_singleton.
  - intros [Hc|Hc]%elem_of_app.
    + apply list_elem_of_fmap in Hc as (c' & -> & Hc'). simpl. f_equal. by apply IH.
    + by apply IH.
Qed.

Lemma combinations_sublist (l : list A) : ∀ r c,
  c ∈ combinations l r → c `sublist_of` l.
Proof.
  induction l as [|x l IH]; intros [|r] c; simpl.
  - by intros ->%list_elem_of_singleton.
  - by intros ?%elem_of_nil.
  - intros ->%list_elem_of_singleton. apply sublist_nil_l.
  - intros [Hc|Hc]%elem_of_app.
    + apply list_elem_of_fmap in Hc as (c' & -> & Hc'). apply sublist_skip. by eapply IH.
    + apply sublist_cons. by eapply IH.
Qed.

Lemma combinations_head (l : list A) r c :
  c ∈ combinations l (S r) → ∃ y c', c = y :: c' ∧ y ∈ l.
Proof.
  intros Hc. pose proof (combinations_length _ _ _ Hc) as Hlen.
  apply combinations_sublist in Hc.
  destruct c as [|y c']; [done|]. exists y, c'. split; [done|].
  eapply elem_of_sublist; [|exact Hc]. by left.
Qed.

Lemma combinations_1 (l : list A) : combinations l 1 = (λ y, [y]) <$> l.
Proof. induction l as [|y l IH]; [done|]. cbn [combinations]. rewrite IH. by destruct l. Qed.

Lemma islice_Ok (it : list A) stop :
  0 ≤ stop ≤ sys_maxsize → islice it stop = Ok (take (Z.to_nat stop) it).
Proof.
  intros. unfold islice.
  rewrite (proj2 (Z.eqb_neq _ _)), !(proj2 (Z.ltb_ge _ _)) by (unfold sys_maxsize in *; lia).
  done.
Qed.

Lemma islice_inv (it out : list A) stop :
  islice it stop = Ok out →
  0 ≤ stop ≤ sys_maxsize ∧ out = take (Z.to_nat stop) it.
Proof.
  unfold islice.
  destruct (stop =? -1) eqn:H1; [done|].
  destruct (stop <? - sys_maxsize - 1) eqn:H2; [done|].
  destruct (sys_maxsize <? stop) eqn:H3; [done|].
  destruct (stop <? 0) eqn:H4; [done|]. simpl.
  apply Z.ltb_ge in H3, H4. by intros [= <-].
Qed.

Lemma islice_Raise (it : list A) stop :
  stop < 0 ∨ sys_maxsize < stop → ∃ w, islice it stop = Raise (ValueError w).
Proof.
  intros H. unfold islice.
  destruct (stop =? -1) eqn:H1; [simpl; eauto|].
  destruct (stop <? - sys_maxsize - 1) eqn:H2; [simpl; eauto|].
  destruct (sys_maxsize <? stop) eqn:H3; [simpl; eauto|].
  destruct (stop <? 0) eqn:H4; [simpl; eauto|].
  apply Z.ltb_ge in H3, H4. lia.
Qed.

End combinations.

Lemma combinations_Forall2 {A B} (R : A → B → Prop) l k :
  Forall2 R l k → ∀ r, Forall2 (Forall2 R) (combinations l r) (combinations k r).
Proof.
  induction 1 as [|x y l k Hxy _ IH]; intros [|r]; simpl.
  - repeat constructor.
  - constructor.
  - repeat constructor.
  - apply Forall2_app; [|apply IH].
    apply Forall2_fmap. eapply Forall2_impl; [apply IH|].
    intros c d Hcd. simpl. by constructor.
Qed.

Lemma lex_lt_cons x a b : lex_lt a b → lex_lt (x :: a) (x :: b).
Proof. simpl. auto. Qed.

Lemma combinations_sorted (l : list nat) :
  StronglySorted lt l → ∀ r, StronglySorted lex_lt (combinations l r).
Proof.
  induction 1 as [|x l Hl IH Hx]; intros [|r]; simpl.
  - repeat constructor.
  - constructor.
  - repeat constructor.
  - apply StronglySorted_app_2.
    + intros a b (a' & -> & _)%list_elem_of_fmap Hb.
      apply combinations_head in Hb as (y & b' & -> & Hy).
      simpl. left. rewrite Forall_forall in Hx. by apply Hx.
    + eapply StronglySorted_fmap; [|apply IH]. intros a b. apply lex_lt_cons.
    + apply IH.
Qed.

Lemma seq_sorted n : ∀ j, StronglySorted lt (seq j n).
Proof.
  induction n as [|n IH]; intros j; simpl; constructor; [apply IH|].
  apply Forall_forall. intros i Hi%elem_of_seq. lia.
Qed.

Lemma seq_lookup_Forall2 {A} (l : list A) :
  Forall2 (λ i x, l !! i = Some x) (seq 0 (length l)) l.
Proof.
  apply Forall2_same_length_lookup. split; [by rewrite length_seq|].
  intros i j x Hj Hx. apply lookup_seq in Hj as [-> _]. done.
Qed.

(** ** The enumerator *)

Lemma enumerate_Ok pool names eval :
  0 ≤ eval → 4 * eval ≤ sys_maxsize →
  enumerate pool names eval
  = Ok {| examined := take (Z.to_nat (4 * eval)) (combinations pool (size names));
          valid_combinations :=
            take (Z.to_nat eval)
              (filter (covers names)
                 (take (Z.to_nat (4 * eval)) (combinations pool (size names)))) |}.
Proof. intros. unfold enumerate. by rewrite !islice_Ok by lia. Qed.

(** A limit that is negative, or whose fourfold exceeds [sys.maxsize], is
    refused by the [islice] of line 229. *)
Lemma enumerate_Raise pool names eval :
  eval < 0 ∨ sys_maxsize < 4 * eval →
  ∃ w, enumerate pool names eval = Raise (ValueError w).
Proof.
  intros H. unfold enumerate.
  destruct (islice_Raise (combinations pool (size names)) (4 * eval)) as [w ->]; [lia|].
  eauto.
Qed.

Lemma enumerate_inv pool names eval en :
  enumerate pool names eval = Ok en →
  0 ≤ eval ∧ 4 * eval ≤ sys_maxsize.
Proof.
  unfold enumerate.
  destruct (islice (combinations pool (size names)) (4 * eval)) as [raw|] eqn:Hraw; [|done].
  apply islice_inv in Hraw as [? _]. intros _. lia.
Qed.

(** C3. For every pool and every eval limit: the enumerator returns when
    [0 <= eval] and [4 * eval <= sys.maxsize], and is stopped by the
    [ValueError] of [islice] for every other limit, before any subset is
    drawn.  Whenever it returns, it has drawn at most 4 * eval raw subsets, a
    leading part of the k-subsets in the order of [itertools.combinations]
    (lexicographic in the positions of the pool), and it hands on at most
    eval of those that pass the filter, a leading part of them. *)
Theorem enumeration_caps pool names eval :
  ((∃ en, enumerate pool names eval = Ok en) ↔ 0 ≤ eval ∧ 4 * eval ≤ sys_maxsize) ∧
  ((∃ w, enumerate pool names eval = Raise (ValueError w))
     ↔ eval < 0 ∨ sys_maxsize < 4 * eval) ∧
  (∀ en, enumerate pool names eval = Ok en →
    examined en `prefix_of` combinations pool (size names) ∧
    Z.of_nat (length (examined en)) ≤ 4 * eval ∧
    valid_combinations en `prefix_of` filter (covers names) (examined en) ∧
    Z.of_nat (length (valid_combinations en)) ≤ eval ∧
    Forall2 (drawn_from pool)
      (take (length (examined en)) (combinations (seq 0 (length pool)) (size names)))
      (examined en) ∧
    StronglySorted lex_lt (combinations (seq 0 (length pool)) (size names))).
Proof.
  split; [|split].
  - split.
    + intros [en Hen]. by eapply enumerate_inv.
    + intros [? ?]. rewrite enumerate_Ok by done. eauto.
  - split.
    + intros [w Hw].
      destruct (Z_lt_le_dec eval 0) as [?|Hpos]; [by left|].
      destruct (Z_lt_le_dec sys_maxsize (4 * eval)) as [?|Hmax]; [by right|].
      by rewrite enumerate_Ok in Hw.
    + apply enumerate_Raise.
  - intros en Hen.
    destruct (enumerate_inv _ _ _ _ Hen) as [Heval Hmax].
    rewrite enumerate_Ok in Hen by done. injection Hen as <-. simpl.
    split; [apply prefix_take|]. split; [rewrite length_take; lia|].
    split; [apply prefix_take|]. split; [rewrite length_take; lia|].
    split; [|apply combinations_sorted, seq_sorted].
    rewrite length_take, <- take_take. apply Forall2_take.
    rewrite take_ge.
    + apply combinations_Forall2, seq_lookup_Forall2.
    + erewrite <- (Forall2_length _ _ (combinations pool (size names))); [done|].
      apply (combinations_Forall2 _ _ _ (seq_lookup_Forall2 pool)).
Qed.

Lemma enumeration_caps_witness :
  ∃ en, enumerate ten_pool (names_of ten_pool) 10 = Ok en ∧
    examined en `prefix_of` combinations ten_pool (size (names_of ten_pool)) ∧
    Z.of_nat (length (examined en)) ≤ 4 * 10 ∧
    valid_combinations en `prefix_of` filter (covers (names_of ten_pool)) (examined en) ∧
    Z.of_nat (length (valid_combinations en)) ≤ 10 ∧
    Forall2 (drawn_from ten_pool)
      (take (length (examined en))
         (combinations (seq 0 (length ten_pool)) (size (names_of ten_pool))))
      (examined en) ∧
    StronglySorted lex_lt (combinations (seq 0 (length ten_pool)) (size (names_of ten_pool))).
Proof.
  destruct (enumeration_caps ten_pool (names_of ten_pool) 10) as (Hret & _ & Hcaps).
  destruct (proj2 Hret) as [en Hen]; [unfold sys_maxsize; lia|].
  exists en. split; [exact Hen|]. exact (Hcaps en Hen).
Defined.

(** With [eval = 10] and a pool that has 45 two-element subsets, 25 of them
    valid: 40 subsets are drawn and 10 valid ones handed on. *)
Example enumerate_ten_pool :
  (λ en, (length (examined en), length (valid_combinations en)))
    <$> (match enumerate ten_pool (names_of ten_pool) 10 with
         | Ok en => Some en | Raise _ => None end)
  = Some (40%nat, 10%nat)
  ∧ length (combinations ten_pool 2) = 45%nat
  ∧ length (filter (covers (names_of ten_pool)) (combinations ten_pool 2)) = 25%nat.
Proof. vm_compute. done. Qed.

(** Three candidates for one region and two for the other: ten subsets of
    two, six of them valid. *)
Example enumerate_five_pool :
  (λ en, (length (examined en), length (valid_combinations en)))
    <$> (match enumerate five_pool (names_of five_pool) 10 with
         | Ok en => Some en | Raise _ => None end)
  = Some (10%nat, 6%nat).
Proof. vm_compute. done. Qed.

Lemma size_list_to_set_le (l : list string) :
  (size (list_to_set (C := gset string) l) ≤ length l)%nat.
Proof.
  induction l as [|x l IH]; [done|]. cbn [list_to_set length].
  rewrite size_union_alt, size_singleton.
  assert (size (list_to_set (C := gset string) l ∖ {[x]}) ≤ size (list_to_set (C := gset string) l))%nat
    by (apply subseteq_size, subseteq_difference_l; done).
  lia.
Qed.

Lemma size_list_to_set_NoDup (l : list string) :
  size (list_to_set (C := gset string) l) = length l → NoDup l.
Proof.
  induction l as [|x l IH]; [constructor|]. simpl.
  destruct (decide (x ∈ l)) as [Hin|Hnin].
  - intros Hsz. exfalso.
    assert ({[x]} ∪ list_to_set l = (list_to_set l : gset string)) as Heq
      by (apply subseteq_union_1_L, singleton_subseteq_l, elem_of_list_to_set; done).
    rewrite Heq in Hsz.
    pose proof (size_list_to_set_le l) as Hle. lia.
  - rewrite size_union, size_singleton
      by (apply disjoint_singleton_l; by rewrite elem_of_list_to_set).
    intros Hsz. constructor; [done|]. apply IH. lia.
Qed.

(** C8. Every combination that passes the filter has exactly k candidates,
    k the number of required names; the set of their region names is the
    required set, and no name occurs twice among them. *)
Theorem valid_combinations_cover pool names eval en c :
  enumerate pool names eval = Ok en →
  c ∈ valid_combinations en →
  length c = size names ∧
  names_of c = names ∧
  NoDup (name <$> c) ∧
  c `sublist_of` pool.
Proof.
  unfold enumerate.
  destruct (islice (combinations pool (size names)) (4 * eval)) as [raw|] eqn:Hraw; [|done].
  destruct (islice (filter (covers names) raw) eval) as [valid|] eqn:Hvalid; [|done].
  intros [= <-]. simpl. intros Hc.
  apply islice_inv in Hraw as [_ ->]. apply islice_inv in Hvalid as [_ ->].
  apply subseteq_take, list_elem_of_filter in Hc as [Hcov Hc].
  apply subseteq_take in Hc.
  pose proof (combinations_length _ _ _ Hc) as Hlen.
  split; [done|]. split; [done|]. split; [|by eapply combinations_sublist].
  apply size_list_to_set_NoDup. rewrite length_fmap, Hlen.
  unfold covers, names_of in Hcov. by rewrite Hcov.
Qed.

Lemma valid_combinations_cover_witness :
  length comb_a = size (names_of ten_pool) ∧
  names_of comb_a = names_of ten_pool ∧
  NoDup (name <$> comb_a) ∧
  comb_a `sublist_of` ten_pool.
Proof.
  apply (valid_combinations_cover ten_pool (names_of ten_pool) 10 ten_enumeration comb_a).
  - vm_compute. reflexivity.
  - vm_compute. left.
Defined.

(** ** [calculate_score] *)

Lemma Qmin_cases x y : Qmin x y = x ∨ Qmin x y = y.
Proof. unfold Qmin, GenericMinMax.gmin. destruct (x ?= y)%Q; auto. Qed.

Lemma Qmax_cases x y : Qmax x y = x ∨ Qmax x y = y.
Proof. unfold Qmax, GenericMinMax.gmax. destruct (x ?= y)%Q; auto. Qed.

Lemma Qminimum_spec qs : ∀ q,
  Qminimum q qs ∈ q :: qs ∧ ∀ d, d ∈ q :: qs → (Qminimum q qs <= d)%Q.
Proof.
  induction qs as [|a qs IH]; intros q; unfold Qminimum; simpl.
  - split; [left|]. intros d ->%list_elem_of_singleton. apply Qle_refl.
  - destruct (IH (Qmin q a)) as [Hin Hle]. unfold Qminimum in Hin, Hle. split.
    + apply elem_of_cons in Hin as [->|Hin]; [|by do 2 right].
      destruct (Qmin_cases q a) as [->| ->]; [left|right; left].
    + intros d Hd.
      assert (fold_left Qmin qs (Qmin q a) <= Qmin q a)%Q as Hm by (apply Hle; left).
      apply elem_of_cons in Hd as [->|Hd]; [|apply elem_of_cons in Hd as [->|Hd]].
      * eapply Qle_trans; [exact Hm|]. apply Q.le_min_l.
      * eapply Qle_trans; [exact Hm|]. apply Q.le_min_r.
      * apply Hle. by right.
Qed.

Lemma Qmaximum_spec qs : ∀ q,
  Qmaximum q qs ∈ q :: qs ∧ ∀ d, d ∈ q :: qs → (d <= Qmaximum q qs)%Q.
Proof.
  induction qs as [|a qs IH]; intros q; unfold Qmaximum; simpl.
  - split; [left|]. intros d ->%list_elem_of_singleton. apply Qle_refl.
  - destruct (IH (Qmax q a)) as [Hin Hle]. unfold Qmaximum in Hin, Hle. split.
    + apply elem_of_cons in Hin as [->|Hin]; [|by do 2 right].
      destruct (Qmax_cases q a) as [->| ->]; [left|right; left].
    + intros d Hd.
      assert (Qmax q a <= fold_left Qmax qs (Qmax q a))%Q as Hm by (apply Hle; left).
      apply elem_of_cons in Hd as [->|Hd]; [|apply elem_of_cons in Hd as [->|Hd]].
      * eapply Qle_trans; [|exact Hm]. apply Q.le_max_l.
      * eapply Qle_trans; [|exact Hm]. apply Q.le_max_r.
      * apply Hle. by right.
Qed.

Lemma extremes_cons q qs : extremes (q :: qs) (Qminimum q qs) (Qmaximum q qs).
Proof.
  destruct (Qminimum_spec qs q) as [? ?], (Qmaximum_spec qs q) as [? ?].
  repeat split; auto.
Qed.

Lemma as_nums_Forall2 vs qs :
  as_nums vs = Ok qs → Forall2 (λ v q, as_num v = Ok q) vs qs.
Proof.
  revert qs. induction vs as [|v vs IH]; intros qs; simpl.
  - intros [= <-]. constructor.
  - destruct (as_num v) as [q|] eqn:Hv; [|done].
    destruct (as_nums vs) as [qs'|]; [|done].
    intros [= <-]. constructor; auto.
Qed.

Lemma spread_is_spread vs d : spread vs = Ok d → is_spread vs d.
Proof.
  unfold spread. destruct vs as [|v vs]; [done|].
  destruct (as_nums (v :: vs)) as [[|q qs]|] eqn:Hn; [done| |done].
  intros [= <-]. exists (q :: qs), (Qminimum q qs), (Qmaximum q qs).
  split; [by apply as_nums_Forall2|]. split; [apply extremes_cons|done].
Qed.

Lemma calculate_score_inv svc pool temp_c comb tr s comb' :
  calculate_score svc pool temp_c comb = (tr, Ok (s, comb')) →
  ∃ size_range tm_range dgs lo hi,
    spread (Product_Size <$> pool) = Ok size_range ∧
    spread ((Forward_tm <$> pool) ++ (Reverse_tm <$> pool)) = Ok tm_range ∧
    outcome (heterodimer_loop svc temp_c (primer_pairs_sequences_of comb)) = Ok dgs ∧
    np_min dgs = Ok lo ∧ np_max dgs = Ok hi ∧
    s = {| score_size := Fin size_range; score_tmp := Fin tm_range;
           score_mean := np_mean dgs; score_range := Fin (Qabs lo - Qabs hi)%Q |} ∧
    comb' = comb.
Proof.
  unfold calculate_score. intros H.
  bind_inv H as size_range Hs. bind_inv H as tm_range Ht. bind_inv H as dgs Hd.
  bind_inv H as lo Hlo. bind_inv H as hi Hhi.
  injection Hs as _ Hs. injection Ht as _ Ht. injection Hlo as _ Hlo. injection Hhi as _ Hhi.
  injection H as _ <- <-.
  exists size_range, tm_range, dgs, lo, hi. rewrite Hd. done.
Qed.

(** C6. Two combinations scored against the same pool get the same [tmp]
    and the same [size]: each is max minus min over the Tm values,
    respectively the product sizes, of the whole pool. *)
Theorem pool_wide_spreads svc pool temp_c comb1 comb2 tr1 tr2 s1 s2 c1 c2 :
  calculate_score svc pool temp_c comb1 = (tr1, Ok (s1, c1)) →
  calculate_score svc pool temp_c comb2 = (tr2, Ok (s2, c2)) →
  score_tmp s1 = score_tmp s2 ∧
  score_size s1 = score_size s2 ∧
  ∃ tm_range size_range,
    score_tmp s1 = Fin tm_range ∧
    is_spread ((Forward_tm <$> pool) ++ (Reverse_tm <$> pool)) tm_range ∧
    score_size s1 = Fin size_range ∧
    is_spread (Product_Size <$> pool) size_range.
Proof.
  intros (sr1 & tr1' & ? & ? & ? & Hs1 & Ht1 & _ & _ & _ & -> & _)%calculate_score_inv
         (sr2 & tr2' & ? & ? & ? & Hs2 & Ht2 & _ & _ & _ & -> & _)%calculate_score_inv.
  simpl. rewrite Hs1 in Hs2. rewrite Ht1 in Ht2. simplify_eq.
  split; [done|]. split; [done|].
  exists tr2', sr2. auto using spread_is_spread.
Qed.

Lemma pool_wide_spreads_witness :
  score_tmp (score_of (calculate_score demo_services ten_pool 65 comb_a))
    = score_tmp (score_of (calculate_score demo_services ten_pool 65 comb_b)) ∧
  score_size (score_of (calculate_score demo_services ten_pool 65 comb_a))
    = score_size (score_of (calculate_score demo_services ten_pool 65 comb_b)) ∧
  ∃ tm_range size_range,
    score_tmp (score_of (calculate_score demo_services ten_pool 65 comb_a)) = Fin tm_range ∧
    is_spread ((Forward_tm <$> ten_pool) ++ (Reverse_tm <$> ten_pool)) tm_range ∧
    score_size (score_of (calculate_score demo_services ten_pool 65 comb_a)) = Fin size_range ∧
    is_spread (Product_Size <$> ten_pool) size_range.
Proof.
  apply (pool_wide_spreads demo_services ten_pool 65 comb_a comb_b
           (trace (calculate_score demo_services ten_pool 65 comb_a))
           (trace (calculate_score demo_services ten_pool 65 comb_b))
           _ _ comb_a comb_b).
  - vm_compute. reflexivity.
  - vm_compute. reflexivity.
Defined.

Example index_pairs_example :
  index_pairs 4 = [(0, 1); (0, 2); (0, 3); (1, 2); (1, 3); (2, 3)]%nat.
Proof. done. Qed.

Lemma elem_of_index_pairs k i j : (i, j) ∈ index_pairs k ↔ (i < j < k)%nat.
Proof.
  unfold index_pairs. rewrite list_elem_of_bind. split.
  - intros (i' & Hj & Hi). apply list_elem_of_fmap in Hj as (j' & [= -> ->] & Hj).
    apply elem_of_seq in Hj, Hi. lia.
  - intros Hij. exists i. split; [|apply elem_of_seq; lia].
    apply list_elem_of_fmap. exists j. split; [done|]. apply elem_of_seq. lia.
Qed.

Lemma list_fmap_bind_out {A B C} (g : B → C) (h : A → list B) (l : list A) :
  g <$> (l ≫= h) = l ≫= (λ a, g <$> h a).
Proof. induction l as [|a l IH]; csimpl; [done|]. by rewrite fmap_app, IH. Qed.

Lemma index_pairs_S k :
  index_pairs (S k) = (pair 0%nat <$> seq 1 k) ++ (prod_map S S <$> index_pairs k).
Proof.
  unfold index_pairs. rewrite list_fmap_bind_out. cbn [seq]. rewrite bind_cons.
  replace (S k - 1)%nat with k by lia. f_equal.
  rewrite <- fmap_S_seq, list_fmap_bind. apply list_bind_ext; [|done].
  intros i. unfold compose. replace (S k - S (S i))%nat with (k - S i)%nat by lia.
  rewrite <- (fmap_S_seq (S i)), <- !list_fmap_compose. done.
Qed.

Lemma primer_pairs_of_cons x comb :
  primer_pairs_of (x :: comb) = (pair x <$> comb) ++ primer_pairs_of comb.
Proof.
  unfold primer_pairs_of. cbn [combinations]. rewrite omap_app, combinations_1. f_equal.
  induction comb as [|y comb IH]; [done|]. csimpl. by rewrite IH.
Qed.

Lemma primer_pairs_of_positions comb :
  Forall2 (λ ij p, comb !! ij.1 = Some p.1 ∧ comb !! ij.2 = Some p.2)
          (index_pairs (length comb)) (primer_pairs_of comb).
Proof.
  induction comb as [|x comb IH]; [constructor|].
  cbn [length]. rewrite index_pairs_S, primer_pairs_of_cons. apply Forall2_app.
  - rewrite <- fmap_S_seq. apply Forall2_fmap, Forall2_fmap_l.
    eapply Forall2_impl; [apply seq_lookup_Forall2|]. by intros i y Hy.
  - apply Forall2_fmap_l. eapply Forall2_impl; [exact IH|]. by intros [i j] [a b] [? ?].
Qed.

Lemma heterodimer_loop_Ok svc temp_c ps : ∀ dgs,
  outcome (heterodimer_loop svc temp_c ps) = Ok dgs →
  Forall2 (λ p dg, calcHeterodimer_dg svc p.1 p.2 temp_c = Ok dg) ps dgs.
Proof.
  induction ps as [|p ps IH]; intros dgs; simpl.
  - intros [= <-]. constructor.
  - destruct (calcHeterodimer_dg svc p.1 p.2 temp_c) as [dg|] eqn:Hdg; [|done]. simpl.
    destruct (heterodimer_loop svc temp_c ps) as [tr [rest|]]; [|done]. simpl.
    intros [= <-]. constructor; [done|]. by apply IH.
Qed.

(** C7. For every scored combination, the energies entering the score are
    those of the unordered pairs of distinct candidates of the combination,
    one per pair: forward sequence of the earlier candidate against reverse
    sequence of the later one, at the target temperature. [mean] is their
    arithmetic mean and [range] is |min| - |max| over them. *)
Theorem score_mean_and_range svc pool temp_c comb tr s comb' :
  calculate_score svc pool temp_c comb = (tr, Ok (s, comb')) →
  ∃ dgs lo hi,
    Forall2 (pair_energy svc temp_c comb) (index_pairs (length comb)) dgs ∧
    score_mean s = Fin (Qsum dgs / inject_Z (Z.of_nat (length dgs))) ∧
    extremes dgs lo hi ∧
    score_range s = Fin (Qabs lo - Qabs hi) ∧
    comb' = comb.
Proof.
  intros (? & ? & dgs & lo & hi & _ & _ & Hd & Hlo & Hhi & -> & ->)%calculate_score_inv.
  exists dgs, lo, hi. simpl.
  destruct dgs as [|d dgs]; [done|]. injection Hlo as <-. injection Hhi as <-.
  split; [|split; [done|split; [apply extremes_cons|done]]].
  apply heterodimer_loop_Ok in Hd. unfold primer_pairs_sequences_of in Hd.
  apply Forall2_fmap_l in Hd.
  eapply Forall2_trans; [|apply primer_pairs_of_positions|exact Hd].
  intros [i j] [ci cj] dg [Hi Hj] Hdg. exists ci, cj. auto.
Qed.

Lemma score_mean_and_range_witness :
  ∃ dgs lo hi,
    Forall2 (pair_energy demo_services 65 comb_a) (index_pairs (length comb_a)) dgs ∧
    score_mean (score_of (calculate_score demo_services ten_pool 65 comb_a))
      = Fin (Qsum dgs / inject_Z (Z.of_nat (length dgs))) ∧
    extremes dgs lo hi ∧
    score_range (score_of (calculate_score demo_services ten_pool 65 comb_a))
      = Fin (Qabs lo - Qabs hi) ∧
    comb_a = comb_a.
Proof.
  apply (score_mean_and_range demo_services ten_pool 65 comb_a
           (trace (calculate_score demo_services ten_pool 65 comb_a))).
  vm_compute. reflexivity.
Defined.

(** * Further properties *)

(** ** [design_primers]: reading the answer *)

Lemma design_primers_answer svc cfg s e nm record primers :
  SeqIO_read svc (input_file cfg) = Ok record →
  designPrimers svc (input_params_of record.1 (template_of record s e) cfg)
                (global_args_of cfg) = Ok primers →
  design_primers svc cfg s e nm
    = (request_trace cfg record s e nm ++ trace (read_answer primers nm),
       outcome (read_answer primers nm)).
Proof.
  intros Hr Hs. unfold design_primers, template_of in *. rewrite Hr.
  cbn [lift bind print emit app fst snd]. rewrite Hs.
  by destruct (read_answer primers nm).
Qed.

Lemma read_pair_listed primers nm i :
  pair_listed primers i → ∃ c, read_pair primers nm i = Ok c.
Proof.
  unfold pair_listed, pair_keys. rewrite !Forall_cons.
  intros ([? H1] & [? H2] & [? H3] & [? H4] & [? H5] & _).
  eexists. unfold read_pair, getitem. rewrite H1, H2, H3, H4, H5. reflexivity.
Qed.

Lemma read_pair_missing primers nm i :
  ¬ pair_listed primers i →
  ∃ k, k ∈ pair_keys i ∧ primers !! k = None ∧ read_pair primers nm i = Raise (KeyError k).
Proof.
  intros Hn. unfold read_pair, getitem, pair_keys.
  destruct (primers !! key_left_seq i) eqn:H1;
    [|exists (key_left_seq i); repeat split; auto; set_solver].
  destruct (primers !! key_right_seq i) eqn:H2;
    [|exists (key_right_seq i); repeat split; auto; set_solver].
  destruct (primers !! key_right_tm i) eqn:H3;
    [|exists (key_right_tm i); repeat split; auto; set_solver].
  destruct (primers !! key_left_tm i) eqn:H4;
    [|exists (key_left_tm i); repeat split; auto; set_solver].
  destruct (primers !! key_product_size i) eqn:H5;
    [|exists (key_product_size i); repeat split; auto; set_solver].
  destruct Hn. unfold pair_listed, pair_keys.
  rewrite !Forall_cons, H1, H2, H3, H4, H5. repeat split; eauto.
Qed.

Lemma read_pairs_listed primers nm n : ∀ j acc,
  (∀ i, (j ≤ i < j + n)%nat → pair_listed primers i) →
  ∃ l, read_pairs primers nm (seq j n) acc = (acc ++ l, None) ∧ length l = n.
Proof.
  induction n as [|n IH]; intros j acc Hall; simpl.
  - exists []. by rewrite app_nil_r.
  - destruct (read_pair_listed primers nm j) as [c ->]; [apply Hall; lia|].
    destruct (IH (S j) (acc ++ [c])) as (l & -> & Hl); [intros; apply Hall; lia|].
    exists (c :: l). rewrite <- app_assoc. simpl. auto.
Qed.

Lemma read_pairs_stops primers nm m : ∀ n j acc,
  (m < n)%nat →
  (∀ i, (j ≤ i < j + m)%nat → pair_listed primers i) →
  ¬ pair_listed primers (j + m) →
  ∃ l k, read_pairs primers nm (seq j n) acc = (acc ++ l, Some (KeyError k))
         ∧ length l = m ∧ k ∈ pair_keys (j + m) ∧ primers !! k = None.
Proof.
  induction m as [|m IH]; intros n j acc Hmn Hall Hmiss;
    (destruct n as [|n]; [lia|]); simpl.
  - rewrite Nat.add_0_r in Hmiss.
    destruct (read_pair_missing primers nm j Hmiss) as (k & Hk & Hnone & ->).
    exists [], k. rewrite app_nil_r, Nat.add_0_r. auto.
  - destruct (read_pair_listed primers nm j) as [c ->]; [apply Hall; lia|].
    destruct (IH n (S j) (acc ++ [c])) as (l & k & -> & Hl & Hk & Hnone).
    + lia.
    + intros; apply Hall; lia.
    + by replace (S j + m)%nat with (j + S m)%nat by lia.
    + exists (c :: l), k. rewrite <- app_assoc. simpl.
      replace (j + S m)%nat with (S j + m)%nat by lia. auto.
Qed.

(** X1. When the design service answers with a positive count [n] and lists
    every key of the pairs [0 .. n-1], [design_primers] returns exactly [n]
    records, the [i]-th built from pair [i] and every one carrying the
    region's name; nothing but the "Picking" line is printed. *)
Theorem design_primers_complete svc cfg s e nm record primers n :
  SeqIO_read svc (input_file cfg) = Ok record →
  designPrimers svc (input_params_of record.1 (template_of record s e) cfg)
                (global_args_of cfg) = Ok primers →
  (0 < n)%nat →
  primers !! key_num_returned = Some (VInt (Z.of_nat n)) →
  (∀ i, (i < n)%nat → pair_listed primers i) →
  ∃ pairs,
    design_primers svc cfg s e nm = (request_trace cfg record s e nm, Ok pairs) ∧
    length pairs = n ∧
    ∀ i c, pairs !! i = Some c → name c = nm ∧ reads_pair primers i c.
Proof.
  intros Hr Hs Hn Hcount Hall.
  rewrite (design_primers_answer _ _ _ _ _ _ _ Hr Hs).
  pose proof (read_answer_inv primers nm) as Hinv.
  unfold read_answer in *. rewrite Hcount in *.
  replace (eq_zero (VInt (Z.of_nat n))) with false in *
    by (symmetry; apply Z.eqb_neq; lia).
  cbn [py_range] in *. rewrite Nat2Z.id in *.
  destruct (read_pairs_listed primers nm n 0 []) as (l & Hl & Hlen);
    [intros; apply Hall; lia|].
  rewrite Hl in *. exists l. simpl.
  split; [done|]. split; [done|].
  intros i c Hi. destruct (Hinv _ _ eq_refl i c Hi). done.
Qed.

Lemma design_primers_complete_witness :
  ∃ pairs,
    design_primers demo_services demo_cfg 100 150 "Target 100-150"
      = (request_trace demo_cfg ("chr1", reference_sequence) 100 150 "Target 100-150", Ok pairs) ∧
    length pairs = 1%nat ∧
    ∀ i c, pairs !! i = Some c → name c = "Target 100-150" ∧ reads_pair demo_answer i c.
Proof.
  apply (design_primers_complete demo_services demo_cfg 100 150 "Target 100-150"
           ("chr1", reference_sequence) demo_answer 1).
  - reflexivity.
  - reflexivity.
  - lia.
  - vm_compute. reflexivity.
  - intros i Hi. assert (i = 0%nat) as -> by lia.
    unfold pair_listed, pair_keys. repeat constructor; vm_compute; eauto.
Defined.

(** X2. When the answer reports [n] pairs but a key of pair [m < n] is
    missing, while the pairs before [m] are listed in full, the [KeyError] is
    caught: [design_primers] prints it and returns the [m] records read so
    far, not the empty list. *)
Theorem design_primers_partial svc cfg s e nm record primers n m :
  SeqIO_read svc (input_file cfg) = Ok record →
  designPrimers svc (input_params_of record.1 (template_of record s e) cfg)
                (global_args_of cfg) = Ok primers →
  primers !! key_num_returned = Some (VInt (Z.of_nat n)) →
  (m < n)%nat →
  (∀ i, (i < m)%nat → pair_listed primers i) →
  ¬ pair_listed primers m →
  ∃ pairs k,
    design_primers svc cfg s e nm
      = (request_trace cfg record s e nm ++ [Print ("An error occurred: '" +:+ k +:+ "'")],
         Ok pairs) ∧
    k ∈ pair_keys m ∧ primers !! k = None ∧
    length pairs = m ∧
    ∀ i c, pairs !! i = Some c → name c = nm ∧ reads_pair primers i c.
Proof.
  intros Hr Hs Hcount Hmn Hall Hmiss.
  rewrite (design_primers_answer _ _ _ _ _ _ _ Hr Hs).
  pose proof (read_answer_inv primers nm) as Hinv.
  unfold read_answer in *. rewrite Hcount in *.
  replace (eq_zero (VInt (Z.of_nat n))) with false in *
    by (symmetry; apply Z.eqb_neq; lia).
  cbn [py_range] in *. rewrite Nat2Z.id in *.
  destruct (read_pairs_stops primers nm m n 0 []) as (l & k & Hl & Hlen & Hk & Hnone);
    [done|intros; apply Hall; lia|done|].
  rewrite Hl in *. exists l, k. simpl.
  split; [done|]. split; [done|]. split; [done|]. split; [done|].
  intros i c Hi. destruct (Hinv _ _ eq_refl i c Hi). done.
Qed.

Lemma design_primers_partial_witness :
  ∃ pairs k,
    design_primers broken_services demo_cfg 100 150 "Target 100-150"
      = (request_trace demo_cfg ("chr1", reference_sequence) 100 150 "Target 100-150"
           ++ [Print ("An error occurred: '" +:+ k +:+ "'")],
         Ok pairs) ∧
    k ∈ pair_keys 1 ∧ broken_answer !! k = None ∧
    length pairs = 1%nat ∧
    ∀ i c, pairs !! i = Some c → name c = "Target 100-150" ∧ reads_pair broken_answer i c.
Proof.
  apply (design_primers_partial broken_services demo_cfg 100 150 "Target 100-150"
           ("chr1", reference_sequence) broken_answer 3 1).
  - reflexivity.
  - reflexivity.
  - vm_compute. reflexivity.
  - lia.
  - intros i Hi. assert (i = 0%nat) as -> by lia.
    unfold pair_listed, pair_keys. repeat constructor; vm_compute; eauto.
  - unfold pair_listed, pair_keys. rewrite !Forall_cons.
    intros (_ & _ & _ & _ & [v Hv] & _). vm_compute in Hv. discriminate Hv.
Defined.

(** X3. Unless the answer reports a positive integer count of pairs,
    [design_primers] returns the empty list: this covers a missing count, a
    count of zero, a negative count and a count that is not an [int] (the
    [TypeError] of [range] is caught). *)
Theorem design_primers_no_pairs svc cfg s e nm record primers :
  SeqIO_read svc (input_file cfg) = Ok record →
  designPrimers svc (input_params_of record.1 (template_of record s e) cfg)
                (global_args_of cfg) = Ok primers →
  (∀ n, 0 < n → primers !! key_num_returned ≠ Some (VInt n)) →
  outcome (design_primers svc cfg s e nm) = Ok [].
Proof.
  intros Hr Hs Hcount.
  rewrite (design_primers_answer _ _ _ _ _ _ _ Hr Hs). cbn [outcome snd].
  unfold read_answer.
  destruct (primers !! key_num_returned) as [v|] eqn:Hv; [|done].
  destruct (eq_zero v) eqn:Hz; [done|].
  destruct v as [z| |]; [|done|done]. cbn [py_range].
  assert (z ≤ 0) as Hle.
  { destruct (decide (0 < z)) as [Hpos|]; [|lia]. by destruct (Hcount z Hpos). }
  replace (Z.to_nat z) with 0%nat by lia. done.
Qed.

Lemma design_primers_no_pairs_witness :
  outcome (design_primers float_count_services demo_cfg 100 150 "Target 100-150") = Ok [].
Proof.
  apply (design_primers_no_pairs float_count_services demo_cfg 100 150 "Target 100-150"
           ("chr1", reference_sequence) float_count_answer).
  - reflexivity.
  - reflexivity.
  - intros n Hn H. vm_compute in H. discriminate H.
Defined.

(** X4. The only exceptions that leave [design_primers] are those of
    reading the reference file and of the design service; whatever the
    answer holds, reading it never raises. When the reference file cannot
    be read, the design service is not called. *)
Theorem design_primers_raise_inv svc cfg s e nm err :
  outcome (design_primers svc cfg s e nm) = Raise err →
  (SeqIO_read svc (input_file cfg) = Raise err
   ∧ generation_count (trace (design_primers svc cfg s e nm)) = 0%nat)
  ∨ ∃ record,
      SeqIO_read svc (input_file cfg) = Ok record ∧
      designPrimers svc (input_params_of record.1 (template_of record s e) cfg)
                    (global_args_of cfg) = Raise err.
Proof.
  unfold design_primers, template_of.
  destruct (SeqIO_read svc (input_file cfg)) as [record|e1] eqn:Hr;
    [|intros [= ->]; by left].
  cbn [lift bind print emit app fst snd outcome].
  destruct (designPrimers svc _ _) as [primers|e2] eqn:Hs;
    [|intros [= ->]; right; eauto].
  unfold read_answer.
  destruct (primers !! key_num_returned) as [v|]; [|done].
  destruct (eq_zero v); [done|].
  destruct (py_range v); [|done].
  by destruct (read_pairs _ _ _ _) as [pp [?|]].
Qed.

Lemma design_primers_raise_inv_witness :
  (SeqIO_read unreadable_services (input_file demo_cfg)
     = Raise (ValueError "No records found in handle")
   ∧ generation_count
       (trace (design_primers unreadable_services demo_cfg 100 150 "Target 100-150")) = 0%nat)
  ∨ ∃ record,
      SeqIO_read unreadable_services (input_file demo_cfg) = Ok record ∧
      designPrimers unreadable_services
        (input_params_of record.1 (template_of record 100 150) demo_cfg)
        (global_args_of demo_cfg) = Raise (ValueError "No records found in handle").
Proof.
  apply (design_primers_raise_inv unreadable_services demo_cfg 100 150 "Target 100-150").
  reflexivity.
Defined.

(** ** [design_primers]: the template *)

Lemma length_substring (s : string) : ∀ n m,
  (n + m ≤ String.length s)%nat → String.length (String.substring n m s) = m.
Proof.
  induction s as [|a s IH]; intros [|n] [|m]; simpl; intros H; try lia; try done.
  - f_equal. apply IH. lia.
  - apply IH. lia.
  - apply IH. lia.
Qed.

(** X5. For a region with [1 ≤ start ≤ end ≤ length of the reference], the
    template sent to the design service has [end - start + 1] bases: the
    region is read as 1-based and inclusive. *)
Theorem template_length record region_start region_end :
  1 ≤ region_start → region_start ≤ region_end →
  region_end ≤ Z.of_nat (String.length record.2) →
  Z.of_nat (String.length (template_of record region_start region_end))
    = region_end - region_start + 1.
Proof.
  intros H1 H2 H3. unfold template_of, py_slice, slice_bound.
  rewrite (proj2 (Z.ltb_ge (region_start - 1) 0)) by lia.
  rewrite (proj2 (Z.ltb_ge region_end 0)) by lia.
  rewrite !Z.min_l by lia.
  rewrite (proj2 (Z.ltb_lt (region_start - 1) region_end)) by lia.
  rewrite length_substring by lia. lia.
Qed.

Lemma template_length_witness :
  Z.of_nat (String.length (template_of ("chr1", reference_sequence) 100 150)) = 150 - 100 + 1.
Proof.
  apply (template_length ("chr1", reference_sequence) 100 150).
  - lia.
  - lia.
  - vm_compute. discriminate.
Defined.

(** X6. A region that starts at 0 is not read as "from the first base":
    [start - 1] is the Python index -1, so the template is empty whenever the
    region ends before the last base of the reference. *)
Theorem template_start_zero record region_end :
  0 ≤ region_end < Z.of_nat (String.length record.2) →
  template_of record 0 region_end = "".
Proof.
  intros H. unfold template_of, py_slice, slice_bound.
  change (0 - 1 <? 0) with true. cbv iota.
  rewrite (proj2 (Z.ltb_ge region_end 0)) by lia.
  rewrite Z.max_r, Z.min_l by lia.
  by rewrite (proj2 (Z.ltb_ge _ _)) by lia.
Qed.

Lemma template_start_zero_witness :
  template_of ("chr1", reference_sequence) 0 150 = "".
Proof.
  apply (template_start_zero ("chr1", reference_sequence) 150).
  vm_compute. split; [discriminate|reflexivity].
Defined.

(** ** Region names *)

Lemma pretty_N_char_digit x : is_digit (pretty_N_char x).
Proof.
  unfold pretty_N_char, is_digit.
  repeat case_match; repeat (first [by left | right]).
Qed.

Lemma pretty_N_go_digits x : ∀ s, all_digits s → all_digits (pretty_N_go x s).
Proof.
  induction (N.lt_wf_0 x) as [x _ IH]; intros s Hs.
  assert (x = 0 ∨ 0 < x)%N as [->|Hx] by lia; [by rewrite pretty_N_go_0|].
  rewrite pretty_N_go_step by done. apply IH.
  - by apply N.div_lt.
  - split; [apply pretty_N_char_digit|done].
Qed.

Lemma pretty_N_go_nonempty x : ∀ s, s ≠ "" → pretty_N_go x s ≠ "".
Proof.
  induction (N.lt_wf_0 x) as [x _ IH]; intros s Hs.
  assert (x = 0 ∨ 0 < x)%N as [->|Hx] by lia; [by rewrite pretty_N_go_0|].
  rewrite pretty_N_go_step by done. apply IH; [by apply N.div_lt|done].
Qed.

Lemma pretty_N_digits (x : N) : all_digits (pretty x) ∧ pretty x ≠ "".
Proof.
  unfold pretty, pretty_N. case_decide.
  - split; [|done]. split; [|done]. unfold is_digit. left.
  - split; [by apply pretty_N_go_digits|].
    rewrite pretty_N_go_step by lia. by apply pretty_N_go_nonempty.
Qed.

Lemma append_nil_l s : "" +:+ s = s.
Proof. done. Qed.

Lemma append_cons a s t : String a s +:+ t = String a (s +:+ t).
Proof. done. Qed.

Lemma dash_no_digit a : String a "" = "-" → ¬ is_digit a.
Proof.
  intros [= ->]. unfold is_digit. intros H.
  repeat (apply elem_of_cons in H as [H|H]; [done|]). by apply elem_of_nil in H.
Qed.

Lemma digits_dash_inj a : ∀ c b d,
  all_digits a → all_digits c →
  a +:+ "-" +:+ b = c +:+ "-" +:+ d → a = c ∧ b = d.
Proof.
  induction a as [|x a IH]; intros [|y c] b d Ha Hc H;
    rewrite ?append_cons, ?append_nil_l in H.
  - injection H as ->. done.
  - injection H as <- _. destruct Hc as [Hc _]. by apply dash_no_digit in Hc.
  - injection H as -> _. destruct Ha as [Ha _]. by apply dash_no_digit in Ha.
  - injection H as -> H. destruct Ha as [_ Ha], Hc as [_ Hc].
    destruct (IH c b d Ha Hc H) as [-> ->]. done.
Qed.

Lemma pretty_Z_shape (z : Z) :
  (0 ≤ z ∧ all_digits (pretty z) ∧ pretty z ≠ "")
  ∨ (z < 0 ∧ ∃ p : N, pretty z = "-" +:+ pretty p).
Proof.
  destruct z as [|p|p].
  - left. split; [done|]. split; [|done]. split; [|done]. unfold is_digit. left.
  - left. split; [lia|]. apply (pretty_N_digits (N.pos p)).
  - right. split; [lia|]. by exists (N.pos p).
Qed.

(** X7. The display name determines the region: two rows derive the same
    name only if they have the same start and the same end. *)
Theorem row_name_inj r1 r2 : row_name r1 = row_name r2 → r1 = r2.
Proof.
  destruct r1 as [s1 e1], r2 as [s2 e2]. unfold row_name, region_name, str_int.
  cbn [r_start r_end]. rewrite !append_cons, !append_nil_l. intros [= H].
  assert (pretty s1 = pretty s2 ∧ pretty e1 = pretty e2) as [Hs He].
  { destruct (pretty_Z_shape s1) as [(_ & Hd1 & Hn1)|(_ & p1 & Hp1)],
             (pretty_Z_shape s2) as [(_ & Hd2 & Hn2)|(_ & p2 & Hp2)].
    - by apply digits_dash_inj.
    - rewrite Hp2 in H. destruct (pretty s1) as [|a rest]; [done|].
      rewrite ?append_cons, ?append_nil_l in H. injection H as -> _. destruct Hd1 as [Hd _].
      by apply dash_no_digit in Hd.
    - rewrite Hp1 in H. destruct (pretty s2) as [|a rest]; [done|].
      rewrite ?append_cons, ?append_nil_l in H. injection H as <- _. destruct Hd2 as [Hd _].
      by apply dash_no_digit in Hd.
    - rewrite Hp1, Hp2 in *. rewrite ?append_cons, ?append_nil_l in H. injection H as H.
      destruct (digits_dash_inj _ _ _ _ (proj1 (pretty_N_digits p1))
                  (proj1 (pretty_N_digits p2)) H) as [-> ->]. done. }
  apply (inj pretty) in Hs, He. by subst.
Qed.

Lemma row_name_inj_witness : row 100 150 = row 100 150.
Proof. apply (row_name_inj (row 100 150) (row 100 150)). reflexivity. Defined.

(** ** The region loop: the pool it builds *)

Lemma elem_of_concat {A} (x : A) (ls : list (list A)) :
  x ∈ concat ls ↔ ∃ l, x ∈ l ∧ l ∈ ls.
Proof.
  induction ls as [|l ls IH]; simpl.
  - split; [by intros ?%elem_of_nil|by intros (l & _ & ?%elem_of_nil)].
  - rewrite elem_of_app, IH. split.
    + intros [?|(l' & ? & ?)]; [exists l; split; [done|left]|exists l'; split; [done|by right]].
    + intros (l' & ? & [->|?]%elem_of_cons); [by left|right; eauto].
Qed.

Lemma design_primers_names svc cfg s e nm tr l :
  design_primers svc cfg s e nm = (tr, Ok l) → Forall (λ c, name c = nm) l.
Proof.
  unfold design_primers. intros H.
  bind_inv H as [] _. bind_inv H as [] _. bind_inv H as record _.
  bind_inv H as [] _. bind_inv H as primers _.
  apply Forall_lookup. intros i c Hi.
  by destruct (read_answer_inv _ _ _ _ H i c Hi).
Qed.

Lemma loop_body_Some_inv svc cfg st index r tr st1 :
  loop_body svc cfg st index r = (tr, Ok (Some st1)) →
  too_large cfg r = false ∧
  ∃ st0 l tr',
    register_name st index (row_name r) = ([], Ok st0) ∧
    primers_all st0 = primers_all st ∧
    design_primers svc cfg (r_start r) (r_end r) (row_name r) = (tr', Ok l) ∧
    seen_names st1 = seen_names st0 ∧
    modified_names st1 = modified_names st0 ∧
    primers_all st1 = primers_all st ++ (if (0 <? length l)%nat then [l] else []).
Proof.
  unfold loop_body, row_name. destruct (too_large cfg r); [done|].
  pose proof (register_name_trace st index (region_name (r_start r) (r_end r))) as Ht.
  destruct (register_name _ _ _) as [tr0 [st0|]] eqn:Hreg; [|done].
  simpl in Ht. subst tr0.
  assert (primers_all st0 = primers_all st) as Hp.
  { unfold register_name in Hreg.
    case_bool_decide; [destruct (modified_names st !! _)|];
      cbv [bind ret random_randint raise] in Hreg; by simplify_eq. }
  destruct (design_primers _ _ _ _ _) as [tr' [l|]] eqn:Hd; [|done].
  cbn [bind]. intros H. split; [done|]. exists st0, l, tr'.
  destruct (0 <? length l)%nat; simpl in H; simplify_eq/=;
    rewrite ?app_nil_r, ?Hp; auto 10.
Qed.

Section pooled_candidates.
Context (svc : services) (cfg : config).

Lemma region_loop_pool_from rows : ∀ st index tr st',
  region_loop svc cfg st index rows = (tr, Ok st') →
  ∃ new,
    primers_all st' = primers_all st ++ new ∧
    Forall (λ g, g ≠ []) new ∧
    (length new ≤ length (before_break cfg rows))%nat ∧
    ∀ g c, g ∈ new → c ∈ g → name c ∈ row_name <$> before_break cfg rows.
Proof.
  induction rows as [|r rows IH]; intros st index tr st'.
  - intros [= _ <-]. exists []. rewrite app_nil_r.
    split; [done|]. split; [constructor|]. split; [done|].
    by intros g c ?%elem_of_nil.
  - cbn [region_loop before_break].
    destruct (loop_body svc cfg st index r) as [tr1 [[st1|]|e]] eqn:Hb; [| |done].
    + apply loop_body_Some_inv in Hb as (-> & st0 & l & tr' & _ & _ & Hd & _ & _ & Hp1).
      cbn [bind].
      destruct (region_loop svc cfg st1 (S index) rows) as [tr2 [st2|]] eqn:Hl; [|done].
      intros [= _ <-].
      destruct (IH _ _ _ _ Hl) as (new & Hnew & Hne & Hlen & Hnames).
      apply design_primers_names in Hd.
      exists ((if (0 <? length l)%nat then [l] else []) ++ new).
      rewrite Hnew, Hp1, <- app_assoc. split; [done|].
      destruct (0 <? length l)%nat eqn:Hpos; simpl.
      * split; [|split; [lia|]].
        { constructor; [|done]. apply Nat.ltb_lt in Hpos. destruct l; [simpl in Hpos; lia|done]. }
        intros g c [->|Hg]%elem_of_cons Hc.
        -- rewrite Forall_forall in Hd. rewrite (Hd c Hc). left.
        -- right. by eapply Hnames.
      * split; [done|]. split; [lia|].
        intros g c Hg Hc. right. by eapply Hnames.
    + apply loop_body_break in Hb as [-> _]. intros [= _ <-].
      exists []. rewrite app_nil_r.
      split; [done|]. split; [constructor|]. split; [done|].
    by intros g c ?%elem_of_nil.
Qed.

(** X8. When the region loop ends normally, every group of candidates it
    has pooled is non-empty, there is at most one group per region processed,
    and every pooled candidate carries the name of a processed region. *)
Theorem region_loop_pool index rows tr st' :
  region_loop svc cfg initial_state index rows = (tr, Ok st') →
  Forall (λ g, g ≠ []) (primers_all st') ∧
  (length (primers_all st') ≤ length (before_break cfg rows))%nat ∧
  ∀ c, c ∈ flat_list (primers_all st') → name c ∈ row_name <$> before_break cfg rows.
Proof.
  intros (new & Hnew & Hne & Hlen & Hnames)%region_loop_pool_from.
  simpl in Hnew. subst new. split; [done|]. split; [done|].
  intros c (g & Hc & Hg)%elem_of_concat. by eapply Hnames.
Qed.

Lemma region_loop_distinct_from rows : ∀ st index tr st',
  modified_names st = ∅ →
  region_loop svc cfg st index rows = (tr, Ok st') →
  NoDup (row_name <$> before_break cfg rows) ∧
  ∀ nm, nm ∈ row_name <$> before_break cfg rows → nm ∉ seen_names st.
Proof.
  induction rows as [|r rows IH]; intros st index tr st' Hm.
  - intros _. split; [constructor|]. by intros nm ?%elem_of_nil.
  - cbn [region_loop before_break].
    destruct (loop_body svc cfg st index r) as [tr1 [[st1|]|e]] eqn:Hb; [| |done].
    + apply loop_body_Some_inv in Hb as (-> & st0 & l & tr' & Hreg & _ & _ & Hs1 & Hm1 & _).
      apply register_name_Ok in Hreg as (Hfresh & Hs0 & Hm0 & _); [|done].
      cbn [bind].
      destruct (region_loop svc cfg st1 (S index) rows) as [tr2 [st2|]] eqn:Hl; [|done].
      intros _.
      destruct (IH st1 _ _ _ (eq_trans Hm1 Hm0) Hl) as [Hnd Hnot].
      assert (∀ nm, nm ∈ row_name <$> before_break cfg rows →
                    nm ≠ row_name r ∧ nm ∉ seen_names st) as Hnot'.
      { intros nm Hnm. specialize (Hnot nm Hnm). rewrite Hs1, Hs0 in Hnot.
        rewrite not_elem_of_union, not_elem_of_singleton in Hnot. done. }
      cbn [fmap list_fmap]. split.
      * constructor; [|done]. intros Hin. by destruct (Hnot' _ Hin).
      * intros nm [->|Hnm]%elem_of_cons; [done|]. by destruct (Hnot' _ Hnm).
    + apply loop_body_break in Hb as [-> _]. intros _.
      split; [constructor|]. by intros nm ?%elem_of_nil.
Qed.

(** X9. When the region loop ends normally, the regions it went through
    have pairwise distinct names: a repeated name never gets past the
    de-duplication block. *)
Theorem region_loop_distinct index rows tr st' :
  region_loop svc cfg initial_state index rows = (tr, Ok st') →
  NoDup (row_name <$> before_break cfg rows).
Proof.
  intros H.
  by destruct (region_loop_distinct_from rows initial_state index tr st' eq_refl H).
Qed.

End pooled_candidates.

Lemma region_loop_pool_witness :
  Forall (λ g, g ≠ [])
    (primers_all (state_of (region_loop demo_services demo_cfg initial_state 0 two_region_table))) ∧
  (length (primers_all
             (state_of (region_loop demo_services demo_cfg initial_state 0 two_region_table)))
     ≤ length (before_break demo_cfg two_region_table))%nat ∧
  ∀ c, c ∈ flat_list (primers_all
                        (state_of (region_loop demo_services demo_cfg initial_state 0
                                     two_region_table)))
       → name c ∈ row_name <$> before_break demo_cfg two_region_table.
Proof.
  apply (region_loop_pool demo_services demo_cfg 0 two_region_table
           (trace (region_loop demo_services demo_cfg initial_state 0 two_region_table))).
  vm_compute. reflexivity.
Defined.

Lemma region_loop_distinct_witness :
  NoDup (row_name <$> before_break demo_cfg two_region_table).
Proof.
  apply (region_loop_distinct demo_services demo_cfg 0 two_region_table
           (trace (region_loop demo_services demo_cfg initial_state 0 two_region_table))
           (state_of (region_loop demo_services demo_cfg initial_state 0 two_region_table))).
  vm_compute. reflexivity.
Defined.

(** X10. Whenever the loop reaches a row that repeats an earlier row, the
    run ends there with the [NameError] of line 154: nothing has been printed
    or requested for the repeated row, and no later row is processed. *)
Theorem repeated_row_raises svc cfg pre r post index tr st' :
  Forall (λ r, too_large cfg r = false) pre →
  r ∈ pre →
  region_loop svc cfg initial_state index pre = (tr, Ok st') →
  region_loop svc cfg initial_state index (pre ++ r :: post)
    = (tr, Raise (NameError "random")).
Proof.
  intros Hpre Hin Hloop.
  apply (region_loop_duplicate_raises svc cfg pre r post index tr st'); [done| |..].
  - rewrite Forall_forall in Hpre. by apply Hpre.
  - by apply list_elem_of_fmap_2.
  - done.
Qed.

Lemma repeated_row_raises_witness :
  region_loop demo_services demo_cfg initial_state 0
      (two_region_table ++ row 100 150 :: [row 500 550])
    = (trace (region_loop demo_services demo_cfg initial_state 0 two_region_table),
       Raise (NameError "random")).
Proof.
  apply (repeated_row_raises demo_services demo_cfg two_region_table (row 100 150)
           [row 500 550] 0
           (trace (region_loop demo_services demo_cfg initial_state 0 two_region_table))
           (state_of (region_loop demo_services demo_cfg initial_state 0 two_region_table))).
  - repeat constructor.
  - left.
  - vm_compute. reflexivity.
Defined.

(** ** The script and the selection as wholes *)

(** X11. No run of the script gets past line 198: what it prints and what
    it asks of the services is what the region loop did, and it ends with the
    exception that ended the loop or, when the loop ended normally, with the
    [NameError] for [target_tm]. The gate on the names and the selection are
    never reached. *)
Theorem script_stops_at_def svc as_completed cfg rows :
  trace (script svc as_completed cfg rows)
    = trace (region_loop svc cfg initial_state 0 rows) ∧
  ((∃ e, outcome (region_loop svc cfg initial_state 0 rows) = Raise e ∧
         outcome (script svc as_completed cfg rows) = Raise e)
   ∨ (∃ st, outcome (region_loop svc cfg initial_state 0 rows) = Ok st ∧
            outcome (script svc as_completed cfg rows) = Raise (NameError "target_tm"))).
Proof.
  unfold script.
  destruct (region_loop svc cfg initial_state 0 rows) as [tr [st|e]]; simpl.
  - rewrite app_nil_r. eauto.
  - eauto.
Qed.

(** X12. The code of lines 223-254 never scores a combination: it prints
    one line and then ends with [exit(1)] when there are fewer than two
    names; with the [ValueError] of [islice] when the eval limit is negative
    or its fourfold exceeds [sys.maxsize]; and for every other limit with the
    [TypeError] of [len] at line 240. *)
Theorem selection_never_scores svc as_completed cfg pool names temp_c :
  ∃ line e,
    selection svc as_completed cfg pool names temp_c = ([Print line], Raise e) ∧
    (((size names ≤ 1)%nat ∧ e = SystemExit 1)
     ∨ ((1 < size names)%nat
        ∧ (arg_eval cfg < 0 ∨ sys_maxsize < 4 * arg_eval cfg)
        ∧ ∃ w, e = ValueError w)
     ∨ ((1 < size names)%nat
        ∧ 0 ≤ arg_eval cfg ∧ 4 * arg_eval cfg ≤ sys_maxsize
        ∧ ∃ w, e = TypeError w)).
Proof.
  unfold selection. case_bool_decide as Hsz.
  - do 2 eexists. split; [reflexivity|]. left. done.
  - cbn [print emit bind].
    destruct (Z_lt_le_dec (arg_eval cfg) 0) as [Hneg|Hpos];
      [|destruct (Z_lt_le_dec sys_maxsize (4 * arg_eval cfg)) as [Hbig|Hmax]].
    + destruct (enumerate_Raise pool names (arg_eval cfg)) as [w ->]; [by left|].
      do 2 eexists. split; [reflexivity|]. right. left.
      split; [lia|]. split; [by left|]. eauto.
    + destruct (enumerate_Raise pool names (arg_eval cfg)) as [w ->]; [by right|].
      do 2 eexists. split; [reflexivity|]. right. left.
      split; [lia|]. split; [by right|]. eauto.
    + rewrite enumerate_Ok by done. cbn.
      do 2 eexists. split; [reflexivity|]. right. right.
      split; [lia|]. split; [done|]. split; [done|]. eauto.
Qed.

(** ** The selection fold as a whole *)

Lemma select_loop_Ok rs : ∀ st i num,
  select_loop st i num (Ok <$> rs)
    = (progress_trace i num (length rs), Ok (foldl update_best st rs)).
Proof.
  induction rs as [|r rs IH]; intros st i num; [done|].
  cbn [fmap list_fmap select_loop lift bind emit foldl length].
  rewrite IH. unfold progress_trace. done.
Qed.

(** X13. A future that holds an exception ends the fold when its turn
    comes: the exception is raised after the arrivals before it have been
    processed, and no later arrival is looked at. *)
Theorem select_loop_failing_future st i num rs e later :
  select_loop st i num ((Ok <$> rs) ++ Raise e :: later)
    = (progress_trace i num (length rs), Raise e).
Proof.
  revert st i. induction rs as [|r rs IH]; intros st i; [done|].
  cbn [fmap list_fmap app select_loop lift bind emit length].
  rewrite IH. unfold progress_trace. done.
Qed.

Lemma fgt_trans a b c : fgt a b = true → fgt b c = true → fgt a c = true.
Proof. rewrite !fgt_below. intros. by eapply below_trans. Qed.

Lemma update_best_cases st r :
  update_best st r = st
  ∨ (update_best st r = {| best_score := r.1; best_comb := Some r.2 |}
     ∧ fgt (score_mean (best_score st)) (score_mean r.1) = true).
Proof.
  unfold update_best, accepts.
  destruct (fgt (score_mean (best_score st)) (score_mean r.1)); [|by left].
  destruct (fgt (fmul09 _) _); [by right|].
  destruct (tmp_test _ _); [by right|by left].
Qed.

(** X14. The fold only ever keeps what it was given: when it ends normally
    the state is either the one it started from, or the score and
    combination of one of the arrivals, and then the mean of that score is
    strictly below the mean it started from. *)
Theorem select_loop_keeps_an_arrival rs : ∀ st i num tr st',
  select_loop st i num (Ok <$> rs) = (tr, Ok st') →
  st' = st
  ∨ ∃ r, r ∈ rs ∧ st' = {| best_score := r.1; best_comb := Some r.2 |}
         ∧ fgt (score_mean (best_score st)) (score_mean r.1) = true.
Proof.
  induction rs as [|r rs IH]; intros st i num tr st'; rewrite select_loop_Ok.
  - intros [= _ <-]. by left.
  - intros [= _ <-]. cbn [foldl length].
    destruct (IH (update_best st r) (S i) num _ _ (select_loop_Ok _ _ _ _))
      as [->|(r' & Hr' & -> & Hlt)].
    + destruct (update_best_cases st r) as [->|[-> Hlt]]; [by left|].
      right. exists r. split; [left|done].
    + right. exists r'. split; [by right|]. split; [done|].
      destruct (update_best_cases st r) as [Heq|[Heq Hlt']]; rewrite Heq in Hlt; [done|].
      by eapply fgt_trans.
Qed.

Lemma select_loop_keeps_an_arrival_witness :
  best_of (select_loop initial_best 0 3 (Ok <$> loose_arrivals)) = initial_best
  ∨ ∃ r, r ∈ loose_arrivals
         ∧ best_of (select_loop initial_best 0 3 (Ok <$> loose_arrivals))
           = {| best_score := r.1; best_comb := Some r.2 |}
         ∧ fgt (score_mean (best_score initial_best)) (score_mean r.1) = true.
Proof.
  apply (select_loop_keeps_an_arrival loose_arrivals initial_best 0 3
           (trace (select_loop initial_best 0 3 (Ok <$> loose_arrivals)))).
  vm_compute. reflexivity.
Defined.

Lemma accepts_loose best s :
  fgt (score_tmp best) (Fin 4) = true →
  accepts best s = fgt (score_mean best) (score_mean s).
Proof.
  intros Ht. unfold accepts. rewrite tmp_test_collapses, Ht.
  destruct (fgt (score_mean best) _); [|done]. by destruct (fgt (fmul09 _) _).
Qed.

Lemma accepts_tight best s :
  fgt (score_tmp best) (Fin 4) = false →
  accepts best s
    = fgt (score_mean best) (score_mean s)
      && fgt (fmul09 (score_range best)) (score_range s).
Proof.
  intros Ht. unfold accepts. rewrite tmp_test_collapses, Ht.
  destruct (fgt (score_mean best) _); [|done]. by destruct (fgt (fmul09 _) _).
Qed.

Lemma update_best_initial r :
  finite (score_mean r.1) →
  update_best initial_best r = {| best_score := r.1; best_comb := Some r.2 |}.
Proof.
  intros [m Hm]. unfold update_best.
  rewrite accepts_loose by done. simpl. by rewrite Hm.
Qed.

(** X15. When the Tm spread of the pool is at most 4, the arrival order
    decides between two combinations neither of whose ranges is below 0.9
    times the other's: whichever arrives first is kept, whatever the two
    means are. *)
Theorem first_arrival_is_kept a b ca cb num ta tb :
  finite (score_mean a) → finite (score_mean b) →
  score_tmp a = Fin ta → score_tmp b = Fin tb →
  (ta <= 4)%Q → (tb <= 4)%Q →
  ¬ below (score_range b) (fmul09 (score_range a)) →
  ¬ below (score_range a) (fmul09 (score_range b)) →
  outcome (select_loop initial_best 0 num [Ok (a, ca); Ok (b, cb)])
    = Ok {| best_score := a; best_comb := Some ca |} ∧
  outcome (select_loop initial_best 0 num [Ok (b, cb); Ok (a, ca)])
    = Ok {| best_score := b; best_comb := Some cb |}.
Proof.
  intros Hma Hmb Hta Htb Hlea Hleb Hrb Hra.
  assert (∀ x y cx cy tx, finite (score_mean x) → score_tmp x = Fin tx → (tx <= 4)%Q →
            ¬ below (score_range y) (fmul09 (score_range x)) →
            outcome (select_loop initial_best 0 num [Ok (x, cx); Ok (y, cy)])
              = Ok {| best_score := x; best_comb := Some cx |}) as Hkeep.
  { intros x y cx cy tx Hmx Htx Hle Hr.
    rewrite (select_loop_Ok [(x, cx); (y, cy)]). cbn [outcome snd foldl].
    rewrite (update_best_initial (x, cx)) by done.
    unfold update_best. cbn [best_score fst].
    rewrite accepts_tight.
    - rewrite <- fgt_below in Hr. apply not_true_is_false in Hr.
      by rewrite Hr, andb_false_r.
    - rewrite Htx. simpl. apply negb_false_iff, Qle_bool_iff. done. }
  split; eapply Hkeep; eauto.
Qed.

Lemma first_arrival_is_kept_witness :
  outcome (select_loop initial_best 0 2 [Ok (tight_first, comb_a); Ok (tight_second, comb_b)])
    = Ok {| best_score := tight_first; best_comb := Some comb_a |} ∧
  outcome (select_loop initial_best 0 2 [Ok (tight_second, comb_b); Ok (tight_first, comb_a)])
    = Ok {| best_score := tight_second; best_comb := Some comb_b |}.
Proof.
  apply (first_arrival_is_kept tight_first tight_second comb_a comb_b 2 3 3).
  - by eexists.
  - by eexists.
  - reflexivity.
  - reflexivity.
  - vm_compute. discriminate.
  - vm_compute. discriminate.
  - vm_compute. intros H. discriminate H.
  - vm_compute. intros H. discriminate H.
Defined.

Lemma not_below_step r old new :
  finite r → finite new →
  ¬ below r old → below new old → ¬ below r new.
Proof.
  intros [x ->] [z ->]. destruct old as [y| |]; simpl; [|tauto|tauto].
  intros H1 H2 H3. apply H1. by eapply Qlt_trans.
Qed.

Lemma below_irrefl a : ¬ below a a.
Proof. destruct a as [x| |]; simpl; [apply Qlt_irrefl|tauto|tauto]. Qed.

Lemma update_best_loose st r t :
  (4 < t)%Q →
  fgt (score_tmp (best_score st)) (Fin 4) = true →
  score_tmp r.1 = Fin t →
  fgt (score_tmp (best_score (update_best st r))) (Fin 4) = true ∧
  ((update_best st r = st ∧ ¬ below (score_mean r.1) (score_mean (best_score st)))
   ∨ (update_best st r = {| best_score := r.1; best_comb := Some r.2 |}
      ∧ below (score_mean r.1) (score_mean (best_score st)))).
Proof.
  intros Ht Hst Hr. unfold update_best. rewrite accepts_loose by done.
  destruct (fgt (score_mean (best_score st)) (score_mean r.1)) eqn:Hm.
  - split; [|right; split; [done|by apply fgt_below]].
    simpl. rewrite Hr. simpl. apply negb_true_iff, not_true_iff_false.
    rewrite Qle_bool_iff. by apply Qlt_not_le.
  - split; [done|]. left. split; [done|].
    rewrite <- fgt_below. by rewrite Hm.
Qed.

Lemma foldl_update_best_loose rs t : ∀ st,
  (4 < t)%Q →
  fgt (score_tmp (best_score st)) (Fin 4) = true →
  Forall (λ r, score_tmp r.1 = Fin t ∧ finite (score_mean r.1)) rs →
  (foldl update_best st rs = st
   ∨ ∃ r, r ∈ rs
          ∧ foldl update_best st rs = {| best_score := r.1; best_comb := Some r.2 |}
          ∧ below (score_mean r.1) (score_mean (best_score st))) ∧
  ∀ r, r ∈ rs →
       ¬ below (score_mean r.1) (score_mean (best_score (foldl update_best st rs))).
Proof.
  induction rs as [|r rs IH]; intros st Ht Hst Hrs.
  - split; [by left|]. by intros r ?%elem_of_nil.
  - apply Forall_cons in Hrs as [[Hr Hfin] Hrs]. cbn [foldl].
    destruct (update_best_loose st r t Ht Hst Hr) as [Hst1 Hcase].
    destruct (IH (update_best st r) Ht Hst1 Hrs) as [Hb Hc].
    destruct Hcase as [[Heq Hrej]|[Heq Hacc]]; rewrite Heq in *.
    + split.
      * destruct Hb as [->|(r' & ? & -> & ?)]; [by left|].
        right. exists r'. split; [by right|done].
      * intros r0 [->|Hr0]%elem_of_cons; [|by apply Hc].
        destruct Hb as [->|(r' & Hr' & -> & Hlt)]; [done|].
        rewrite Forall_forall in Hrs. destruct (Hrs r' Hr') as [_ Hfin'].
        by eapply not_below_step.
    + split.
      * right. destruct Hb as [->|(r' & ? & -> & Hlt)].
        -- exists r. split; [left|done].
        -- exists r'. split; [by right|]. split; [done|]. by eapply below_trans.
      * intros r0 [->|Hr0]%elem_of_cons; [|by apply Hc].
        destruct Hb as [->|(r' & Hr' & -> & Hlt)]; simpl in *.
        -- apply below_irrefl.
        -- intros Hlt'. eapply below_irrefl, below_trans; eauto.
Qed.

(** X16. When the Tm spread of the pool is above 4, the fold is a search
    for the least mean: over a non-empty stream of finite scores it ends with
    the score and combination of an arrival whose mean no other arrival
    undercuts. *)
Theorem loose_pool_keeps_least_mean rs t i num :
  (4 < t)%Q →
  rs ≠ [] →
  Forall (λ r, score_tmp r.1 = Fin t ∧ finite (score_mean r.1)) rs →
  ∃ r, r ∈ rs ∧
    outcome (select_loop initial_best i num (Ok <$> rs))
      = Ok {| best_score := r.1; best_comb := Some r.2 |} ∧
    ∀ r', r' ∈ rs → ¬ below (score_mean r'.1) (score_mean r.1).
Proof.
  intros Ht Hne Hrs. rewrite select_loop_Ok. cbn [outcome snd].
  destruct (foldl_update_best_loose rs t initial_best Ht eq_refl Hrs) as [Hb Hc].
  destruct Hb as [Heq|(r & Hr & Heq & _)].
  - exfalso. destruct rs as [|r rs]; [done|].
    apply Forall_cons in Hrs as [[_ [m Hm]] _].
    apply (Hc r); [left|]. rewrite Heq, Hm. done.
  - exists r. split; [done|]. split; [by rewrite Heq|].
    intros r' Hr'. specialize (Hc r' Hr'). by rewrite Heq in Hc.
Qed.

Lemma loose_pool_keeps_least_mean_witness :
  ∃ r, r ∈ loose_arrivals ∧
    outcome (select_loop initial_best 0 3 (Ok <$> loose_arrivals))
      = Ok {| best_score := r.1; best_comb := Some r.2 |} ∧
    ∀ r', r' ∈ loose_arrivals → ¬ below (score_mean r'.1) (score_mean r.1).
Proof.
  apply (loose_pool_keeps_least_mean loose_arrivals 5 0 3).
  - reflexivity.
  - discriminate.
  - repeat constructor; by eexists.
Defined.

(** ** The enumerator without its caps *)

Lemma combinations_0 {A} (l : list A) : combinations l 0 = [[]].
Proof. by destruct l. Qed.

Lemma combinations_of_sublist {A} (c l : list A) :
  c `sublist_of` l → c ∈ combinations l (length c).
Proof.
  induction 1 as [|x c l _ IH|x c l _ IH]; simpl.
  - left.
  - apply elem_of_app. left. by apply list_elem_of_fmap_2.
  - destruct c as [|y c]; [rewrite combinations_0; left|].
    apply elem_of_app. by right.
Qed.

(** X17. [itertools.combinations(l, r)] yields exactly the sub-sequences
    of [l] that have [r] elements. *)
Theorem combinations_elem_of {A} (l : list A) r c :
  c ∈ combinations l r ↔ c `sublist_of` l ∧ length c = r.
Proof.
  split.
  - intros Hc. split; [by eapply combinations_sublist|by eapply combinations_length].
  - intros [Hsub <-]. by apply combinations_of_sublist.
Qed.

Lemma length_combinations {A} (l : list A) : ∀ r,
  length (combinations l r) = choose (length l) r.
Proof.
  induction l as [|x l IH]; intros [|r]; simpl; try done.
  by rewrite length_app, length_fmap, !IH.
Qed.

(** X18. [itertools.combinations(l, r)] yields as many subsets as the
    binomial coefficient says, so the enumerator draws
    [min (4 * eval) (choose n k)] raw subsets from a pool of [n] candidates
    with [k] names. *)
Theorem examined_count pool names eval en :
  enumerate pool names eval = Ok en →
  length (combinations pool (size names)) = choose (length pool) (size names) ∧
  length (examined en)
    = (Z.to_nat (4 * eval) `min` choose (length pool) (size names))%nat.
Proof.
  unfold enumerate.
  destruct (islice (combinations pool (size names)) (4 * eval)) as [raw|] eqn:Hraw; [|done].
  destruct (islice (filter (covers names) raw) eval) as [valid|]; [|done].
  intros [= <-]. simpl. apply islice_inv in Hraw as [_ ->].
  by rewrite length_take, length_combinations.
Qed.

Lemma examined_count_witness :
  length (combinations ten_pool (size (names_of ten_pool)))
    = choose (length ten_pool) (size (names_of ten_pool)) ∧
  length (examined ten_enumeration)
    = (Z.to_nat (4 * 10) `min` choose (length ten_pool) (size (names_of ten_pool)))%nat.
Proof.
  apply (examined_count ten_pool (names_of ten_pool) 10 ten_enumeration).
  vm_compute. reflexivity.
Defined.

(** X19. When neither cap is reached, the enumerator is exhaustive: the
    combinations handed on are exactly the sub-sequences of the pool that
    have one candidate for every required name and no other candidate. *)
Theorem enumerate_exhaustive pool names eval en :
  enumerate pool names eval = Ok en →
  Z.of_nat (choose (length pool) (size names)) ≤ 4 * eval →
  Z.of_nat (length (filter (covers names) (combinations pool (size names)))) ≤ eval →
  ∀ c, c ∈ valid_combinations en ↔
       c `sublist_of` pool ∧ length c = size names ∧ names_of c = names.
Proof.
  intros Hen Hraw Hvalid.
  rewrite <- length_combinations in Hraw.
  unfold enumerate in Hen.
  destruct (islice (combinations pool (size names)) (4 * eval)) as [raw|] eqn:Hr; [|done].
  destruct (islice (filter (covers names) raw) eval) as [valid|] eqn:Hv; [|done].
  injection Hen as <-. simpl.
  apply islice_inv in Hr as [_ ->]. apply islice_inv in Hv as [_ ->].
  rewrite (take_ge (combinations _ _)) by lia.
  rewrite take_ge by lia.
  intros c. rewrite list_elem_of_filter. unfold covers. split.
  - intros [Hcov Hc]. split; [by eapply combinations_sublist|].
    split; [by eapply combinations_length|done].
  - intros (Hsub & <- & Hcov). split; [done|]. by apply combinations_of_sublist.
Qed.

Lemma enumerate_exhaustive_witness :
  five_comb ∈ valid_combinations five_enumeration ↔
    five_comb `sublist_of` five_pool ∧ length five_comb = size (names_of five_pool)
    ∧ names_of five_comb = names_of five_pool.
Proof.
  apply (enumerate_exhaustive five_pool (names_of five_pool) 10 five_enumeration).
  - vm_compute. reflexivity.
  - vm_compute. discriminate.
  - vm_compute. discriminate.
Defined.

Lemma combinations_cons {A} (x : A) l r :
  combinations (x :: l) (S r) = (cons x <$> combinations l r) ++ combinations l (S r).
Proof. done. Qed.

Lemma filter_none {A} (P : A → Prop) `{∀ x, Decision (P x)} (l : list A) :
  Forall (λ x, ¬ P x) l → filter P l = [].
Proof.
  induction 1 as [|x l Hx _ IH]; [done|]. by rewrite filter_cons_False.
Qed.

Lemma names_of_same_pair a b : name b = name a → size (names_of [a; b]) = 1%nat.
Proof.
  intros Hab. unfold names_of.
  change (list_to_set (name <$> [a; b]))
    with ({[name a]} ∪ ({[name b]} ∪ (∅ : gset string))).
  by rewrite Hab, (right_id_L ∅ (∪)), (idemp_L (∪)), size_singleton.
Qed.

(** X20. The caps can starve the enumeration: in a pool of two names that
    starts with more than [4 * eval] candidates of one name, every subset
    drawn pairs two candidates of that name, and no combination is handed
    on, however many valid ones the pool holds.  ([4 * eval] is a count that
    [islice] accepts, as the length of a Python list always is.) *)
Theorem enumeration_starves first same rest eval :
  Forall (λ c, name c = name first) same →
  0 ≤ 4 * eval ≤ Z.of_nat (length same) →
  4 * eval ≤ sys_maxsize →
  size (names_of (first :: same ++ rest)) = 2%nat →
  ∃ en, enumerate (first :: same ++ rest) (names_of (first :: same ++ rest)) eval = Ok en
        ∧ length (examined en) = Z.to_nat (4 * eval)
        ∧ valid_combinations en = [].
Proof.
  intros Hsame Heval Hmax Hsz. rewrite enumerate_Ok by lia. rewrite Hsz.
  eexists. split; [done|]. cbn [examined valid_combinations].
  rewrite combinations_cons, combinations_1, <- list_fmap_compose, fmap_app, <- app_assoc.
  rewrite take_app_le by (rewrite length_fmap; lia).
  rewrite <- fmap_take.
  split; [rewrite length_fmap, length_take; lia|].
  rewrite filter_none; [apply take_nil|].
  apply Forall_fmap, Forall_forall. intros y Hy Hcov.
  apply subseteq_take in Hy. rewrite Forall_forall in Hsame.
  unfold covers in Hcov. rewrite <- Hcov in Hsz. unfold compose in Hsz.
  rewrite names_of_same_pair in Hsz by auto. done.
Qed.

Lemma enumeration_starves_witness :
  ∃ en, enumerate (starved_first :: starved_same ++ starved_rest)
                  (names_of (starved_first :: starved_same ++ starved_rest)) 1 = Ok en
        ∧ length (examined en) = Z.to_nat (4 * 1)
        ∧ valid_combinations en = [].
Proof.
  apply (enumeration_starves starved_first starved_same starved_rest 1).
  - repeat constructor.
  - vm_compute. split; discriminate.
  - vm_compute. discriminate.
  - vm_compute. reflexivity.
Defined.

(** ** [calculate_score]: when it returns and what it costs *)

Lemma as_nums_numeric vs :
  Forall numeric vs → ∃ qs, as_nums vs = Ok qs ∧ length qs = length vs.
Proof.
  induction 1 as [|v vs Hv _ [qs [IH Hlen]]]; [by exists []|].
  simpl. rewrite IH. destruct v as [z|q|s]; [| |done].
  - exists (inject_Z z :: qs). simpl. auto.
  - exists (q :: qs). simpl. auto.
Qed.

Lemma spread_numeric vs :
  vs ≠ [] → Forall numeric vs → ∃ d, spread vs = Ok d.
Proof.
  intros Hne Hnum. destruct (as_nums_numeric vs Hnum) as (qs & Hqs & Hlen).
  unfold spread. destruct vs as [|v vs]; [done|]. rewrite Hqs.
  destruct qs as [|q qs]; [done|]. eauto.
Qed.

Lemma heterodimer_loop_total svc temp_c ps :
  (∀ a b, ∃ q, calcHeterodimer_dg svc a b temp_c = Ok q) →
  ∃ tr dgs, heterodimer_loop svc temp_c ps = (tr, Ok dgs) ∧ length dgs = length ps.
Proof.
  intros Htot. induction ps as [|p ps (tr & dgs & IH & Hlen)]; [by exists [], []|].
  destruct (Htot p.1 p.2) as [q Hq]. simpl. rewrite Hq, IH. simpl.
  do 2 eexists. split; [reflexivity|]. simpl. by rewrite Hlen.
Qed.

Lemma heterodimer_loop_count svc temp_c ps : ∀ tr dgs,
  heterodimer_loop svc temp_c ps = (tr, Ok dgs) →
  heterodimer_count tr = length ps ∧ length dgs = length ps.
Proof.
  induction ps as [|p ps IH]; intros tr dgs; simpl.
  - by intros [= <- <-].
  - destruct (calcHeterodimer_dg svc p.1 p.2 temp_c) as [q|]; [|done]. simpl.
    destruct (heterodimer_loop svc temp_c ps) as [tr' [dgs'|]]; [|done]. simpl.
    intros [= <- <-]. destruct (IH _ _ eq_refl) as [Hc Hl].
    unfold heterodimer_count in *. simpl. rewrite app_nil_r. auto.
Qed.

Lemma length_index_pairs k : (2 * length (index_pairs k) = k * (k - 1))%nat.
Proof.
  induction k as [|k IH]; [done|].
  rewrite index_pairs_S, length_app, !length_fmap, length_seq.
  replace (S k - 1)%nat with k by lia. destruct k as [|k]; [done|].
  replace (S k - 1)%nat with k in IH by lia. nia.
Qed.

Lemma length_primer_pairs_sequences comb :
  length (primer_pairs_sequences_of comb) = length (index_pairs (length comb)).
Proof.
  unfold primer_pairs_sequences_of. rewrite length_fmap.
  symmetry. eapply Forall2_length, primer_pairs_of_positions.
Qed.

(** X21. [calculate_score] returns a score for every combination of at
    least two candidates, provided the pool is not empty, its Tm values and
    product sizes are numbers, and the thermodynamics service answers; the
    combination is handed back unchanged. *)
Theorem calculate_score_returns svc pool temp_c comb :
  pool ≠ [] →
  numeric_pool pool →
  (2 ≤ length comb)%nat →
  (∀ a b, ∃ q, calcHeterodimer_dg svc a b temp_c = Ok q) →
  ∃ tr s, calculate_score svc pool temp_c comb = (tr, Ok (s, comb)).
Proof.
  intros Hne Hnum Hlen Htot. unfold calculate_score.
  destruct (spread_numeric (Product_Size <$> pool)) as [d1 ->].
  { by destruct pool. }
  { apply Forall_fmap. eapply Forall_impl; [exact Hnum|]. by intros c (_ & _ & ?). }
  destruct (spread_numeric ((Forward_tm <$> pool) ++ (Reverse_tm <$> pool))) as [d2 ->].
  { by destruct pool. }
  { apply Forall_app. split; apply Forall_fmap;
      (eapply Forall_impl; [exact Hnum|]); by intros c (? & ? & _). }
  destruct (heterodimer_loop_total svc temp_c (primer_pairs_sequences_of comb) Htot)
    as (tr & dgs & Hloop & Hdgs).
  cbn [lift bind app]. rewrite Hloop. cbn [bind].
  destruct dgs as [|d dgs].
  - exfalso. rewrite length_primer_pairs_sequences in Hdgs.
    pose proof (length_index_pairs (length comb)) as Hk. simpl in Hdgs. nia.
  - simpl. eauto.
Qed.

Lemma calculate_score_returns_witness :
  ∃ tr s, calculate_score demo_services ten_pool 65 comb_a = (tr, Ok (s, comb_a)).
Proof.
  apply (calculate_score_returns demo_services ten_pool 65 comb_a).
  - discriminate.
  - repeat constructor.
  - simpl. lia.
  - intros a b. by eexists.
Defined.

(** X22. A combination of fewer than two candidates is never scored:
    there is no pair to evaluate and [calculate_score] ends with an
    exception, whatever the pool and the service. *)
Theorem calculate_score_needs_two svc pool temp_c comb :
  (length comb < 2)%nat →
  ∃ e, outcome (calculate_score svc pool temp_c comb) = Raise e.
Proof.
  intros Hlen. unfold calculate_score.
  assert (primer_pairs_sequences_of comb = []) as ->.
  { destruct comb as [|c [|c' comb]]; [done|done|simpl in Hlen; lia]. }
  destruct (spread (Product_Size <$> pool)); [|simpl; eauto].
  destruct (spread _); simpl; eauto.
Qed.

Lemma calculate_score_needs_two_witness :
  ∃ e, outcome (calculate_score demo_services ten_pool 65
                  [pool_candidate "Target 100-150" "A"]) = Raise e.
Proof.
  apply (calculate_score_needs_two demo_services ten_pool 65
           [pool_candidate "Target 100-150" "A"]).
  simpl. lia.
Defined.

(** X23. Scoring a combination of [k] candidates calls the thermodynamics
    service once for every unordered pair: [k (k - 1) / 2] calls. *)
Theorem calculate_score_calls svc pool temp_c comb tr r :
  calculate_score svc pool temp_c comb = (tr, Ok r) →
  (2 * heterodimer_count tr = length comb * (length comb - 1))%nat.
Proof.
  unfold calculate_score. intros H.
  destruct (spread (Product_Size <$> pool)); [|done].
  destruct (spread _); [|done]. cbn [lift bind app] in H.
  destruct (heterodimer_loop svc temp_c (primer_pairs_sequences_of comb))
    as [tr' [dgs|]] eqn:Hloop; [|done].
  apply heterodimer_loop_count in Hloop as [Hc _].
  cbn [bind] in H.
  destruct (np_min dgs); [|done]. destruct (np_max dgs); [|done].
  simpl in H. injection H as <- _. rewrite !app_nil_r.
  rewrite Hc, length_primer_pairs_sequences. apply length_index_pairs.
Qed.

Lemma calculate_score_calls_witness :
  (2 * heterodimer_count (trace (calculate_score demo_services ten_pool 65 comb_a))
   = length comb_a * (length comb_a - 1))%nat.
Proof.
  apply (calculate_score_calls demo_services ten_pool 65 comb_a
           (trace (calculate_score demo_services ten_pool 65 comb_a))
           (score_of (calculate_score demo_services ten_pool 65 comb_a), comb_a)).
  vm_compute. reflexivity.
Defined.

(** ** [calculate_score]: the values of a score *)

Lemma extremes_ordered qs lo hi : extremes qs lo hi → (lo <= hi)%Q.
Proof. intros (_ & Hhi & Hall). by destruct (Hall hi Hhi). Qed.

(** X24. Both pool-wide spreads of a score are non-negative numbers. *)
Theorem score_spreads_nonneg svc pool temp_c comb tr s c :
  calculate_score svc pool temp_c comb = (tr, Ok (s, c)) →
  ∃ t z, score_tmp s = Fin t ∧ (0 <= t)%Q ∧ score_size s = Fin z ∧ (0 <= z)%Q.
Proof.
  intros (z & t & ? & ? & ? & Hz & Ht & _ & _ & _ & -> & _)%calculate_score_inv.
  exists t, z. simpl.
  apply spread_is_spread in Hz as (? & lo1 & hi1 & _ & Hext1%extremes_ordered & ->).
  apply spread_is_spread in Ht as (? & lo2 & hi2 & _ & Hext2%extremes_ordered & ->).
  split; [done|]. split; [lra|]. split; [done|lra].
Qed.

Lemma score_spreads_nonneg_witness :
  ∃ t z,
    score_tmp (score_of (calculate_score demo_services ten_pool 65 comb_a)) = Fin t
    ∧ (0 <= t)%Q
    ∧ score_size (score_of (calculate_score demo_services ten_pool 65 comb_a)) = Fin z
    ∧ (0 <= z)%Q.
Proof.
  apply (score_spreads_nonneg demo_services ten_pool 65 comb_a
           (trace (calculate_score demo_services ten_pool 65 comb_a)) _ comb_a).
  vm_compute. reflexivity.
Defined.

(** X26. When no pair energy is positive, as for energies of dimer
    formation, the range of a score is non-negative. *)
Theorem score_range_nonneg svc pool temp_c comb tr s c :
  (∀ a b q, calcHeterodimer_dg svc a b temp_c = Ok q → (q <= 0)%Q) →
  calculate_score svc pool temp_c comb = (tr, Ok (s, c)) →
  ∃ r, score_range s = Fin r ∧ (0 <= r)%Q.
Proof.
  intros Hneg (? & ? & dgs & lo & hi & _ & _ & Hd & Hlo & Hhi & -> & _)%calculate_score_inv.
  apply heterodimer_loop_Ok in Hd.
  assert (∀ d, d ∈ dgs → (d <= 0)%Q) as Hall.
  { intros d Hin. apply list_elem_of_lookup in Hin as [i Hi].
    destruct (Forall2_lookup_r _ _ _ _ _ Hd Hi) as (p & _ & Hp). by eapply Hneg. }
  destruct dgs as [|d dgs]; [done|]. injection Hlo as <-. injection Hhi as <-.
  destruct (extremes_cons d dgs) as (Hl & Hh & Hbd).
  pose proof (Hall _ Hl) as Hl0. pose proof (Hall _ Hh) as Hh0.
  destruct (Hbd _ Hh) as [Hlh _].
  exists (Qabs (Qminimum d dgs) - Qabs (Qmaximum d dgs))%Q.
  simpl. split; [done|].
  rewrite (Qabs_neg _ Hl0), (Qabs_neg _ Hh0). lra.
Qed.

Lemma score_range_nonneg_witness :
  ∃ r,
    score_range (score_of (calculate_score demo_services ten_pool 65 comb_a)) = Fin r
    ∧ (0 <= r)%Q.
Proof.
  apply (score_range_nonneg demo_services ten_pool 65 comb_a
           (trace (calculate_score demo_services ten_pool 65 comb_a)) _ comb_a).
  - intros a b q [= <-]. vm_compute. discriminate.
  - vm_compute. reflexivity.
Defined.
